(** * json-scheme-builder: the field tree and its JSON projection

    A shallow embedding of [src/components/Schemabuilder.jsx], followed by
    the facts proved about it.

    Definitions:
    - the fragment of JavaScript the component relies on: numbers with
      [===], plain objects with property assignment and own-key order;
    - the snapshot model: field trees as values, [generateSchema], the
      state updates of [SchemaBuilder] and the handlers of [FieldRow], with
      the callback wiring of the rendered rows;
    - the store model ([Module Store]): the same code over a heap of objects
      and arrays, where object identity and mutation can be observed.

    Facts: first about the snapshot model, then about the store model and
    how the two agree. *)

From Stdlib Require Import List String Ascii Bool Arith NArith Lia Floats Permutation Sorted.
Import ListNotations.
Open Scope string_scope.
Open Scope list_scope.
Set Warnings "-register-all".

(** ** JavaScript numbers *)

(** A JavaScript number is an IEEE 754 binary64 value. *)
Definition number := float.

(** [a === b] on two numbers: IEEE equality ([NaN] equals nothing). *)
Definition strict_eq (a b : number) : bool := PrimFloat.eqb a b.

Notation "a === b" := (strict_eq a b) (at level 70, no associativity).
Notation "a !== b" := (negb (strict_eq a b)) (at level 70, no associativity).

(** ** Plain JavaScript objects

    An object created by [{}] is modelled by its own enumerable string-keyed
    properties, in the order in which they were created. *)

Definition object (V : Type) := list (string * V).

Definition keys {V} (o : object V) : list string := map fst o.

Fixpoint get {V} (o : object V) (k : string) : option V :=
  match o with
  | [] => None
  | (k', v) :: o' => if k' =? k then Some v else get o' k
  end.

(** Assignment to a data property: an existing property keeps its place
    and takes the new value, a new property is created last. *)
Fixpoint replace_or_append {V} (o : object V) (k : string) (v : V) : object V :=
  match o with
  | [] => [(k, v)]
  | (k', v') :: o' =>
      if k' =? k then (k', v) :: o' else (k', v') :: replace_or_append o' k v
  end.

(** [o[k] = v] for an object [o] created by [{}].  Its prototype chain ends in
    [Object.prototype], whose only accessor property with a setter is
    [__proto__]: assigning to that key runs the setter, which changes (or, for
    a primitive [v], ignores) the prototype slot and creates no own property.
    Every other key creates or overwrites an own data property. *)
Definition js_set {V} (o : object V) (k : string) (v : V) : object V :=
  if k =? "__proto__" then o else replace_or_append o k v.

(** An array index is the canonical decimal string of an integer below
    [2^32 - 1]: no sign, no leading zero, digits only. *)
Definition digit_of (c : ascii) : option N :=
  let n := N_of_ascii c in
  if ((48 <=? n) && (n <=? 57))%N then Some (n - 48)%N else None.

Fixpoint parse_digits (s : string) (acc : N) : option N :=
  match s with
  | EmptyString => Some acc
  | String c s' =>
      match digit_of c with
      | Some d => parse_digits s' (10 * acc + d)%N
      | None => None
      end
  end.

Definition array_index (k : string) : option N :=
  match k with
  | EmptyString => None
  | String c rest =>
      if (c =? "0")%char && negb (rest =? "") then None
      else match parse_digits k 0 with
           | Some n => if (n <? 4294967295)%N then Some n else None
           | None => None
           end
  end.

Definition is_array_index (k : string) : bool :=
  match array_index k with Some _ => true | None => false end.

Fixpoint insert_index (n : N) (k : string) (l : list (N * string)) : list (N * string) :=
  match l with
  | [] => [(n, k)]
  | (m, k') :: l' =>
      if (n <? m)%N then (n, k) :: l else (m, k') :: insert_index n k l'
  end.

(** The array-index keys among [ks], in ascending numeric order. *)
Fixpoint index_keys (ks : list string) : list (N * string) :=
  match ks with
  | [] => []
  | k :: ks' =>
      match array_index k with
      | Some n => insert_index n k (index_keys ks')
      | None => index_keys ks'
      end
  end.

(** The other keys among [ks], in the order of [ks]. *)
Definition string_keys (ks : list string) : list string :=
  filter (fun k => negb (is_array_index k)) ks.

(** The order in which [Object.keys] and [JSON.stringify] enumerate the own
    properties: array indices ascending, then the other keys in creation
    order. *)
Definition enumerate (ks : list string) : list string :=
  map snd (index_keys ks) ++ string_keys ks.

Definition own_keys {V} (o : object V) : list string := enumerate (keys o).

(** ** Fields and JSON values *)

(** A field object [{ id, keyName, type, children }]. *)
Inductive Field : Type :=
| mkField (id : number) (keyName : string) (type : string) (children : list Field).

Definition id (f : Field) : number := match f with mkField i _ _ _ => i end.
Definition keyName (f : Field) : string := match f with mkField _ k _ _ => k end.
Definition type (f : Field) : string := match f with mkField _ _ t _ => t end.
Definition children (f : Field) : list Field := match f with mkField _ _ _ c => c end.

(** The values [generateSchema] builds. *)
Inductive JSON : Type :=
| JString (s : string)
| JNumber (n : number)
| JObject (props : object JSON).

(** ** createDefaultField

    [Date.now()] and [Math.random()] are the two ambient inputs of a call. *)
Definition createDefaultField (now random : number) : Field :=
  mkField (now + random)%float "" "string" [].

(** ** generateSchema *)

(** The callback of [fields.forEach] in [generateSchema], acting on the
    object [schema] under construction. *)
Fixpoint visit (schema : object JSON) (field : Field) {struct field} : object JSON :=
  match field with
  | mkField _ keyName type children =>
      if keyName =? "" then schema
      else if type =? "string" then js_set schema keyName (JString "String (default)")
      else if type =? "number" then js_set schema keyName (JNumber 0%float)
      else if type =? "nested" then js_set schema keyName (JObject (fold_left visit children []))
      else schema
  end.

Definition generateSchema (fields : list Field) : object JSON :=
  fold_left visit fields [].

(** ** SchemaBuilder: the root state and its three updates *)

Definition initialFields : list Field :=
  [ mkField 1%float "user" "nested"
      [ mkField 2%float "name" "string" [];
        mkField 3%float "age" "number" [];
        mkField 4%float "address" "nested"
          [ mkField 5%float "street" "string" [];
            mkField 6%float "zip" "number" [] ] ];
    mkField 7%float "productId" "string" [] ].

(** Each update returns the array handed to [setFields]. *)
Definition addField (fields : list Field) (now random : number) : list Field :=
  fields ++ [createDefaultField now random].

Definition updateField (fields : list Field) (updatedField : Field) : list Field :=
  map (fun f => if id f === id updatedField then updatedField else f) fields.

Definition removeField (fields : list Field) (fieldId : number) : list Field :=
  filter (fun f => id f !== fieldId) fields.

(** ** FieldRow: the handlers of one rendered row *)

(** [{ ...field, children: c }] *)
Definition with_children (field : Field) (c : list Field) : Field :=
  mkField (id field) (keyName field) (type field) c.

(** The two objects [handleUpdate] is called with. *)
Inductive Change : Type :=
| ChangeKeyName (keyName : string)
| ChangeType (type : string).

(** [{ ...field, ...change }] *)
Definition with_change (field : Field) (change : Change) : Field :=
  match change with
  | ChangeKeyName k => mkField (id field) k (type field) (children field)
  | ChangeType t => mkField (id field) (keyName field) t (children field)
  end.

Section FieldRowHandlers.

(** The props of the row; [onUpdate] yields the next root state. *)
Variable field : Field.
Variable onUpdate : Field -> list Field.

Definition handleUpdate (change : Change) : list Field :=
  onUpdate (with_change field change).

Definition addChildField (now random : number) : list Field :=
  onUpdate (with_children field (children field ++ [createDefaultField now random])).

Definition handleChildUpdate (updatedChild : Field) : list Field :=
  onUpdate (with_children field
    (map (fun child => if id child === id updatedChild then updatedChild else child)
         (children field))).

Definition handleChildRemove (childId : number) : list Field :=
  onUpdate (with_children field
    (filter (fun child => id child !== childId) (children field))).

End FieldRowHandlers.

(** The props a rendered [FieldRow] receives; [onRemove] is a thunk in the
    source and is recorded here by the state it would set. *)
Record Props : Type := mkProps {
  field : Field;
  onUpdate : Field -> list Field;
  onRemove : list Field
}.

(** The row rendered at [path] below the row with props [p]: a row renders
    its children only when its type is ["nested"], and hands each child its
    own [handleChildUpdate] and [handleChildRemove]. *)
Fixpoint FieldRow (p : Props) (path : list nat) : option Props :=
  match path with
  | [] => Some p
  | i :: rest =>
      if type (field p) =? "nested" then
        match nth_error (children (field p)) i with
        | Some child =>
            FieldRow
              (mkProps child
                 (handleChildUpdate (field p) (onUpdate p))
                 (handleChildRemove (field p) (onUpdate p) (id child)))
              rest
        | None => None
        end
      else None
  end.

(** The row [SchemaBuilder] renders at [path] (an index into the root
    sequence followed by indices into children). *)
Definition SchemaBuilder (fields : list Field) (path : list nat) : option Props :=
  match path with
  | [] => None
  | i :: rest =>
      match nth_error fields i with
      | Some f =>
          FieldRow (mkProps f (updateField fields) (removeField fields (id f))) rest
      | None => None
      end
  end.

(** ** Positions in the forest

    A path is an index into the root sequence followed by indices into
    children.  The functions below say what replacing or removing the node
    at a path means; they are compared with the code further down. *)

Fixpoint node_at (fields : list Field) (path : list nat) : option Field :=
  match path with
  | [] => None
  | i :: rest =>
      match nth_error fields i with
      | Some f => match rest with [] => Some f | _ :: _ => node_at (children f) rest end
      | None => None
      end
  end.

Fixpoint replace_nth {A} (i : nat) (x : A) (l : list A) {struct l} : list A :=
  match l, i with
  | [], _ => []
  | _ :: l', 0 => x :: l'
  | y :: l', S i' => y :: replace_nth i' x l'
  end.

Fixpoint remove_nth {A} (i : nat) (l : list A) {struct l} : list A :=
  match l, i with
  | [], _ => []
  | _ :: l', 0 => l'
  | y :: l', S i' => y :: remove_nth i' l'
  end.

(** The forest with the node at [path] replaced by [u], every ancestor
    rebuilt around its new children and nothing else touched. *)
Fixpoint replace_at (path : list nat) (u : Field) (fields : list Field) : list Field :=
  match path with
  | [] => fields
  | i :: rest =>
      match rest, nth_error fields i with
      | [], _ => replace_nth i u fields
      | _ :: _, Some f =>
          replace_nth i (with_children f (replace_at rest u (children f))) fields
      | _ :: _, None => fields
      end
  end.

(** The forest with the node at [path], and so its subtree, taken out. *)
Fixpoint remove_at (path : list nat) (fields : list Field) : list Field :=
  match path with
  | [] => fields
  | i :: rest =>
      match rest, nth_error fields i with
      | [], _ => remove_nth i fields
      | _ :: _, Some f =>
          replace_nth i (with_children f (remove_at rest (children f))) fields
      | _ :: _, None => fields
      end
  end.

(** [q] and [path] name nodes of which neither is the other or an ancestor
    of the other. *)
Fixpoint apart (q path : list nat) : bool :=
  match q, path with
  | i :: q', j :: path' => if (i =? j)%nat then apart q' path' else true
  | _, _ => false
  end.

(** The nodes of a forest in document order, by id, name and type. *)
Fixpoint labels_of (f : Field) : list (number * string * string) :=
  match f with
  | mkField i k t c => (i, k, t) :: flat_map labels_of c
  end.

Definition labels (fields : list Field) : list (number * string * string) :=
  flat_map labels_of fields.

(** The ids of the nodes of a forest, in document order. *)
Definition ids (fields : list Field) : list number :=
  map (fun l => fst (fst l)) (labels fields).

(** The ids of the list are pairwise different under [===], and each
    [===] itself. *)
Fixpoint all_distinct (xs : list number) : bool :=
  match xs with
  | [] => true
  | x :: xs' =>
      (x === x) && forallb (fun y => (x !== y) && (y !== x)) xs' && all_distinct xs'
  end.

(** Among the siblings [l], the one at index [i] is the only one whose id
    [===] [x]. *)
Fixpoint only_from (k : nat) (l : list Field) (i : nat) (x : number) : bool :=
  match l with
  | [] => true
  | g :: l' => Bool.eqb (id g === x) (k =? i)%nat && only_from (S k) l' i x
  end.

Definition only_match (l : list Field) (i : nat) (x : number) : bool :=
  only_from 0 l i x.

(** [path] leads to a node that the handlers can single out by id: every
    ancestor is the only one among its siblings with its id, and the node
    itself is the only one among its siblings whose id [===] [target]. *)
Fixpoint addressable (fields : list Field) (path : list nat) (target : number) : bool :=
  match path with
  | [] => false
  | i :: rest =>
      match nth_error fields i with
      | None => false
      | Some f =>
          match rest with
          | [] => only_match fields i target
          | _ :: _ => only_match fields i (id f) && addressable (children f) rest target
          end
      end
  end.


(** ** Which fields reach the projected object *)

(** The three cases of the [switch]. *)
Definition recognized (type : string) : bool :=
  (type =? "string") || (type =? "number") || (type =? "nested").

(** The value the callback assigns for a field of a recognized type. *)
Definition value_of (f : Field) : JSON :=
  if type f =? "string" then JString "String (default)"
  else if type f =? "number" then JNumber 0%float
  else JObject (generateSchema (children f)).

(** The field creates or overwrites an own property of the schema. *)
Definition emits (f : Field) : bool :=
  negb (keyName f =? "") && negb (keyName f =? "__proto__") && recognized (type f).

(** The names of the fields that emit, in sequence order. *)
Definition emitted (fields : list Field) : list string :=
  map keyName (filter emits fields).

Definition mem (k : string) (ks : list string) : bool := existsb (String.eqb k) ks.

(** [ks] without the names already in [seen] and without repetitions, each
    name at its first place. *)
Fixpoint first_occurrences (seen ks : list string) : list string :=
  match ks with
  | [] => []
  | k :: ks' =>
      if mem k seen then first_occurrences seen ks'
      else k :: first_occurrences (seen ++ [k]) ks'
  end.

(** The last field of the sequence that emits under the name [k]. *)
Definition last_emitting (k : string) (fields : list Field) : option Field :=
  fold_left (fun r f => if emits f && (keyName f =? k) then Some f else r) fields None.

(** Space, tab, line feed, vertical tab, form feed, carriage return. *)
Definition is_space (c : ascii) : bool :=
  let n := nat_of_ascii c in (n =? 32)%nat || ((9 <=? n)%nat && (n <=? 13)%nat).

(** A name made of white space only (the empty name included). *)
Fixpoint is_blank (s : string) : bool :=
  match s with
  | EmptyString => true
  | String c s' => is_space c && is_blank s'
  end.

(** ** What generateSchema reads of a field *)

(** The field without what [generateSchema] never reads: its id and, when
    its type is not ["nested"], its children. *)
Fixpoint projected_part (f : Field) : Field :=
  match f with
  | mkField _ k t c =>
      mkField 0%float k t (if t =? "nested" then map projected_part c else [])
  end.

(** ** The component as a state machine

    The state is the root sequence; an event is a use of one of the controls
    that [SchemaBuilder] and the rendered rows put on screen. *)
Inductive Event : Type :=
| ClickAddField (now random : number)
| ChangeRow (path : list nat) (change : Change)
| ClickRemove (path : list nat)
| ClickAddNestedField (path : list nat) (now random : number).

(** The state an event sets, or [None] when no such control is on screen
    (no row at the path, or no "Add Nested Field" button because the type
    of the row's field is not ["nested"]). *)
Definition dispatch (fields : list Field) (e : Event) : option (list Field) :=
  match e with
  | ClickAddField now random => Some (addField fields now random)
  | ChangeRow path change =>
      match SchemaBuilder fields path with
      | Some q => Some (handleUpdate (field q) (onUpdate q) change)
      | None => None
      end
  | ClickRemove path =>
      match SchemaBuilder fields path with
      | Some q => Some (onRemove q)
      | None => None
      end
  | ClickAddNestedField path now random =>
      match SchemaBuilder fields path with
      | Some q =>
          if type (field q) =? "nested"
          then Some (addChildField (field q) (onUpdate q) now random)
          else None
      | None => None
      end
  end.

Fixpoint run (fields : list Field) (events : list Event) : option (list Field) :=
  match events with
  | [] => Some fields
  | e :: es =>
      match dispatch fields e with
      | Some fields' => run fields' es
      | None => None
      end
  end.

(** The id [x] equals itself and no id of the forest. *)
Definition fresh_id (fields : list Field) (x : number) : Prop :=
  (x === x) = true /\
  forall y, In y (ids fields) -> (x === y) = false /\ (y === x) = false.

(** Every id created along the run is fresh when it is created. *)
Fixpoint fresh_ids (fields : list Field) (events : list Event) : Prop :=
  match events with
  | [] => True
  | e :: es =>
      match e with
      | ClickAddField now random | ClickAddNestedField _ now random =>
          fresh_id fields (now + random)%float
      | _ => True
      end /\
      match dispatch fields e with
      | Some fields' => fresh_ids fields' es
      | None => True
      end
  end.

(** * The store model

    The same component over a heap, so that object identity is visible:
    field objects, arrays and schema objects live in cells, a reference is
    the index of a cell, [map], [filter], spread and literals allocate, and
    the only write to an existing cell is a property assignment. *)

Module Store.

Definition loc := nat.

(** What a property of a schema object holds. *)
Inductive value : Type :=
| VString (s : string)
| VNumber (n : number)
| VRef (l : loc).

Inductive cell : Type :=
| CField (id : number) (keyName : string) (type : string) (children : loc)
| CArray (elems : list loc)
| CObject (props : object value).

Definition heap := list cell.

Definition read (h : heap) (l : loc) : option cell := nth_error h l.

Definition alloc (h : heap) (c : cell) : heap * loc := (h ++ [c], List.length h).

Definition write (h : heap) (l : loc) (c : cell) : heap := replace_nth l c h.

(** [field.id] *)
Definition id_of (h : heap) (field : loc) : option number :=
  match read h field with
  | Some (CField i _ _ _) => Some i
  | _ => None
  end.

(** [o[k] = v] on a schema object. *)
Definition assign (h : heap) (o : loc) (k : string) (v : value) : option heap :=
  match read h o with
  | Some (CObject props) => Some (write h o (CObject (js_set props k v)))
  | _ => None
  end.

(** A result is [None] when the fuel of a recursive function runs out, or
    when a cell is not of the kind the code is written for: the root and
    every [children] an array, every element of such an array a field
    object.  The component builds no other heap (see [repr_fields] below),
    and the facts about this model are stated for the heaps it builds.  On
    another heap JavaScript reads [undefined] off the object and goes on,
    which the model does not follow. *)

Fixpoint forEach (f : heap -> loc -> option heap) (elems : list loc) (h : heap)
  : option heap :=
  match elems with
  | [] => Some h
  | e :: es =>
      match f h e with
      | Some h' => forEach f es h'
      | None => None
      end
  end.

Fixpoint array_map (f : loc -> option loc) (elems : list loc) : option (list loc) :=
  match elems with
  | [] => Some []
  | e :: es =>
      match f e, array_map f es with
      | Some e', Some es' => Some (e' :: es')
      | _, _ => None
      end
  end.

Fixpoint array_filter (f : loc -> option bool) (elems : list loc) : option (list loc) :=
  match elems with
  | [] => Some []
  | e :: es =>
      match f e, array_filter f es with
      | Some b, Some es' => Some (if b then e :: es' else es')
      | _, _ => None
      end
  end.

(** ** createDefaultField *)

Definition createDefaultField (now random : number) (h : heap) : heap * loc :=
  let (h1, children) := alloc h (CArray []) in
  alloc h1 (CField (now + random)%float "" "string" children).

(** ** generateSchema *)

(** The callback of [fields.forEach]; [generate] is the recursive call. *)
Definition visit (generate : loc -> heap -> option (heap * loc)) (schema : loc)
  (h : heap) (field : loc) : option heap :=
  match read h field with
  | Some (CField _ keyName type children) =>
      if keyName =? "" then Some h
      else if type =? "string" then assign h schema keyName (VString "String (default)")
      else if type =? "number" then assign h schema keyName (VNumber 0%float)
      else if type =? "nested" then
        match generate children h with
        | Some (h', r) => assign h' schema keyName (VRef r)
        | None => None
        end
      else Some h
  | _ => None
  end.

Fixpoint generateSchema (fuel : nat) (fields : loc) (h : heap) : option (heap * loc) :=
  match fuel with
  | 0 => None
  | S fuel' =>
      match read h fields with
      | Some (CArray elems) =>
          let (h0, schema) := alloc h (CObject []) in
          match forEach (visit (generateSchema fuel') schema) elems h0 with
          | Some h' => Some (h', schema)
          | None => None
          end
      | _ => None
      end
  end.

(** ** SchemaBuilder: the three updates; each returns the array handed to
    [setFields] *)

(** [f => f.id === updated.id ? updated : f] *)
Definition replace_if_same_id (h : heap) (updated : loc) (f : loc) : option loc :=
  match id_of h f, id_of h updated with
  | Some i, Some u => Some (if i === u then updated else f)
  | _, _ => None
  end.

(** [f => f.id !== fieldId] *)
Definition has_other_id (h : heap) (fieldId : number) (f : loc) : option bool :=
  match id_of h f with
  | Some i => Some (i !== fieldId)
  | None => None
  end.

Definition addField (fields : loc) (now random : number) (h : heap)
  : option (heap * loc) :=
  match read h fields with
  | Some (CArray elems) =>
      let (h1, f) := createDefaultField now random h in
      Some (alloc h1 (CArray (elems ++ [f])))
  | _ => None
  end.

Definition updateField (fields : loc) (updatedField : loc) (h : heap)
  : option (heap * loc) :=
  match read h fields with
  | Some (CArray elems) =>
      match array_map (replace_if_same_id h updatedField) elems with
      | Some elems' => Some (alloc h (CArray elems'))
      | None => None
      end
  | _ => None
  end.

Definition removeField (fields : loc) (fieldId : number) (h : heap)
  : option (heap * loc) :=
  match read h fields with
  | Some (CArray elems) =>
      match array_filter (has_other_id h fieldId) elems with
      | Some elems' => Some (alloc h (CArray elems'))
      | None => None
      end
  | _ => None
  end.

(** ** FieldRow: the handlers of one rendered row *)

Definition callback := loc -> heap -> option (heap * loc).

Section FieldRowHandlers.

Variable field : loc.
Variable onUpdate : callback.

(** [onUpdate({ ...field, ...change })] *)
Definition handleUpdate (change : Change) (h : heap) : option (heap * loc) :=
  match read h field with
  | Some (CField i k t c) =>
      let (h1, f') :=
        alloc h (match change with
                 | ChangeKeyName k' => CField i k' t c
                 | ChangeType t' => CField i k t' c
                 end) in
      onUpdate f' h1
  | _ => None
  end.

Definition addChildField (now random : number) (h : heap) : option (heap * loc) :=
  match read h field with
  | Some (CField i k t c) =>
      match read h c with
      | Some (CArray elems) =>
          let (h1, child) := createDefaultField now random h in
          let (h2, newChildren) := alloc h1 (CArray (elems ++ [child])) in
          let (h3, f') := alloc h2 (CField i k t newChildren) in
          onUpdate f' h3
      | _ => None
      end
  | _ => None
  end.

Definition handleChildUpdate (updatedChild : loc) (h : heap) : option (heap * loc) :=
  match read h field with
  | Some (CField i k t c) =>
      match read h c with
      | Some (CArray elems) =>
          match array_map (replace_if_same_id h updatedChild) elems with
          | Some elems' =>
              let (h1, newChildren) := alloc h (CArray elems') in
              let (h2, f') := alloc h1 (CField i k t newChildren) in
              onUpdate f' h2
          | None => None
          end
      | _ => None
      end
  | _ => None
  end.

Definition handleChildRemove (childId : number) (h : heap) : option (heap * loc) :=
  match read h field with
  | Some (CField i k t c) =>
      match read h c with
      | Some (CArray elems) =>
          match array_filter (has_other_id h childId) elems with
          | Some elems' =>
              let (h1, newChildren) := alloc h (CArray elems') in
              let (h2, f') := alloc h1 (CField i k t newChildren) in
              onUpdate f' h2
          | None => None
          end
      | _ => None
      end
  | _ => None
  end.

End FieldRowHandlers.

Record Props : Type := mkProps {
  field : loc;
  onUpdate : callback;
  onRemove : heap -> option (heap * loc)
}.

(** The row rendered at [path] below the row with props [p], rendered from
    the heap [h]. *)
Fixpoint FieldRow (h : heap) (p : Props) (path : list nat) : option Props :=
  match path with
  | [] => Some p
  | i :: rest =>
      match read h (field p) with
      | Some (CField _ _ t c) =>
          if t =? "nested" then
            match read h c with
            | Some (CArray elems) =>
                match nth_error elems i with
                | Some child =>
                    match id_of h child with
                    | Some childId =>
                        FieldRow h
                          (mkProps child
                             (handleChildUpdate (field p) (onUpdate p))
                             (handleChildRemove (field p) (onUpdate p) childId))
                          rest
                    | None => None
                    end
                | None => None
                end
            | _ => None
            end
          else None
      | _ => None
      end
  end.

Definition SchemaBuilder (h : heap) (fields : loc) (path : list nat) : option Props :=
  match path with
  | [] => None
  | i :: rest =>
      match read h fields with
      | Some (CArray elems) =>
          match nth_error elems i with
          | Some f =>
              match id_of h f with
              | Some fieldId =>
                  FieldRow h
                    (mkProps f (updateField fields) (removeField fields fieldId))
                    rest
              | None => None
              end
          | None => None
          end
      | _ => None
      end
  end.

(** ** Evaluating a literal

    An array literal evaluates its elements in order and then allocates the
    array; an object literal evaluates [children] and then allocates the
    object. *)
Fixpoint literal (f : Field) (h : heap) {struct f} : heap * loc :=
  match f with
  | mkField i k t c =>
      let '(h1, elems) :=
        fold_left (fun '(h', ls) g => let (h'', l) := literal g h' in (h'', ls ++ [l]))
                  c (h, []) in
      let (h2, children) := alloc h1 (CArray elems) in
      alloc h2 (CField i k t children)
  end.

Definition literals (fields : list Field) (h : heap) : heap * loc :=
  let '(h1, elems) :=
    fold_left (fun '(h', ls) g => let (h'', l) := literal g h' in (h'', ls ++ [l]))
              fields (h, []) in
  alloc h1 (CArray elems).

(** The initial state of [SchemaBuilder], allocated in an empty heap. *)
Definition initialFields : heap * loc := literals initialFields [].

(** ** Heaps and the snapshots they hold *)

(** [h'] is [h] with more cells after it: every reference into [h] reads
    the same cell in [h']. *)
Definition extends (h h' : heap) : Prop := exists t, h' = h ++ t.

(** The field object at [l] and everything below it hold the snapshot [f]. *)
Fixpoint repr_field (h : heap) (f : Field) (l : loc) {struct f} : Prop :=
  match f with
  | mkField i k t c =>
      exists a elems,
        read h l = Some (CField i k t a) /\
        read h a = Some (CArray elems) /\
        (fix all (c : list Field) (elems : list loc) {struct c} : Prop :=
           match c, elems with
           | [], [] => True
           | g :: c', e :: elems' => repr_field h g e /\ all c' elems'
           | _, _ => False
           end) c elems
  end.

(** The array at [arr] holds the snapshot forest [fields]. *)
Definition repr_fields (h : heap) (fields : list Field) (arr : loc) : Prop :=
  exists elems,
    read h arr = Some (CArray elems) /\
    Forall2 (repr_field h) fields elems.

(** The value [v] holds the JSON value [j]. *)
Fixpoint repr_json (h : heap) (j : JSON) (v : value) {struct j} : Prop :=
  match j with
  | JString s => v = VString s
  | JNumber n => v = VNumber n
  | JObject props =>
      exists l vprops,
        v = VRef l /\
        read h l = Some (CObject vprops) /\
        (fix all (props : object JSON) (vprops : object value) {struct props} : Prop :=
           match props, vprops with
           | [], [] => True
           | (k, j') :: ps, (k', v') :: vs => k = k' /\ repr_json h j' v' /\ all ps vs
           | _, _ => False
           end) props vprops
  end.

(** As [repr_json], with every object of the value stored above [lo] and
    above the object that refers to it. *)
Fixpoint repr_above (h : heap) (lo : loc) (j : JSON) (v : value) {struct j} : Prop :=
  match j with
  | JString s => v = VString s
  | JNumber n => v = VNumber n
  | JObject props =>
      exists l vprops,
        v = VRef l /\ lo < l /\
        read h l = Some (CObject vprops) /\
        (fix all (props : object JSON) (vprops : object value) {struct props} : Prop :=
           match props, vprops with
           | [], [] => True
           | (k, j') :: ps, (k', v') :: vs => k = k' /\ repr_above h l j' v' /\ all ps vs
           | _, _ => False
           end) props vprops
  end.

(** Two property lists with the same keys in the same order and values
    related by [R]. *)
Definition props_rel (R : JSON -> value -> Prop)
  (props : object JSON) (vprops : object value) : Prop :=
  Forall2 (fun p q => fst p = fst q /\ R (snd p) (snd q)) props vprops.

(** Two values are deeply equal when they hold the same JSON value: the same
    keys in the same order, bound to deeply equal values. *)
Definition deep_equal (h : heap) (v1 v2 : value) : Prop :=
  exists j, repr_json h j v1 /\ repr_json h j v2.

(** The nesting depth of a snapshot. *)
Fixpoint depth (f : Field) : nat :=
  match f with
  | mkField _ _ _ c => S (list_max (map depth c))
  end.

Definition depth_fields (fields : list Field) : nat := list_max (map depth fields).

(** ** Positions in the heap *)

(** The field object at [path] below the array [arr]. *)
Fixpoint loc_at (h : heap) (arr : loc) (path : list nat) : option loc :=
  match path with
  | [] => None
  | i :: rest =>
      match read h arr with
      | Some (CArray elems) =>
          match nth_error elems i with
          | Some f =>
              match rest with
              | [] => Some f
              | _ :: _ =>
                  match read h f with
                  | Some (CField _ _ _ c) => loc_at h c rest
                  | _ => None
                  end
              end
          | None => None
          end
      | _ => None
      end
  end.

(** Among the field objects [elems], the one at index [i] is the only one
    whose id [===] [x]. *)
Fixpoint only_from (h : heap) (k : nat) (elems : list loc) (i : nat) (x : number) : bool :=
  match elems with
  | [] => true
  | e :: es =>
      match id_of h e with
      | Some ei => Bool.eqb (ei === x) (k =? i)%nat && only_from h (S k) es i x
      | None => false
      end
  end.

Definition only_match (h : heap) (elems : list loc) (i : nat) (x : number) : bool :=
  only_from h 0 elems i x.

(** [path] leads to a field object that the handlers can single out by id
    (see [addressable] of the snapshot model). *)
Fixpoint addressable (h : heap) (arr : loc) (path : list nat) (target : number) : bool :=
  match path with
  | [] => false
  | i :: rest =>
      match read h arr with
      | Some (CArray elems) =>
          match nth_error elems i with
          | Some f =>
              match rest with
              | [] => only_match h elems i target
              | _ :: _ =>
                  match read h f with
                  | Some (CField fi _ _ c) =>
                      only_match h elems i fi && addressable h c rest target
                  | _ => false
                  end
              end
          | None => false
          end
      | _ => false
      end
  end.

(** The array [arr'] of [h'] is the array [arr] of [h] rebuilt along [path]
    around the object [u]: at each level the array is a new one of the same
    length whose elements off the path are the very references of the old
    array; the element on the path is [u] at the end of the path and, before
    that, a new object with the id, name and type of the old one and children
    rebuilt in the same way. *)
Fixpoint rebuilt (h h' : heap) (arr arr' : loc) (path : list nat) (u : loc) : Prop :=
  match path with
  | [] => False
  | i :: rest =>
      exists elems elems',
        read h arr = Some (CArray elems) /\
        read h' arr' = Some (CArray elems') /\
        List.length h <= arr' /\
        List.length elems' = List.length elems /\
        i < List.length elems /\
        (forall j, j <> i -> nth_error elems' j = nth_error elems j) /\
        match rest with
        | [] => nth_error elems' i = Some u
        | _ :: _ =>
            exists f f' fi k t c c',
              nth_error elems i = Some f /\
              nth_error elems' i = Some f' /\
              List.length h <= f' /\
              read h f = Some (CField fi k t c) /\
              read h' f' = Some (CField fi k t c') /\
              rebuilt h h' c c' rest u
        end
  end.

End Store.

(** * Facts about the snapshot model *)

(** ** Lists: replacing and removing by index *)

Lemma replace_nth_length {A} (i : nat) (x : A) (l : list A) :
  List.length (replace_nth i x l) = List.length l.
Proof.
  revert i; induction l as [|y l IH]; intros [|i]; simpl; auto.
Qed.

Lemma nth_error_replace_nth_same {A} (i : nat) (x y : A) (l : list A) :
  nth_error l i = Some y -> nth_error (replace_nth i x l) i = Some x.
Proof.
  revert i; induction l as [|z l IH]; intros [|i]; simpl; intros H;
    try discriminate; auto.
Qed.

Lemma nth_error_replace_nth_other {A} (i j : nat) (x : A) (l : list A) :
  i <> j -> nth_error (replace_nth i x l) j = nth_error l j.
Proof.
  revert i j; induction l as [|z l IH]; intros i j H.
  - destruct i; reflexivity.
  - destruct i, j; simpl; auto; congruence.
Qed.

Lemma only_from_spec (k : nat) (l : list Field) (i : nat) (x : number) :
  only_from k l i x = true <->
  forall j g, nth_error l j = Some g -> (id g === x) = (k + j =? i)%nat.
Proof.
  revert k; induction l as [|g l IH]; intros k; simpl.
  - split; auto. intros _ [|j] g'; discriminate.
  - rewrite andb_true_iff, IH. split.
    + intros [H0 H] [|j] g'; simpl; intros E.
      * inversion E; subst g'. apply eqb_prop in H0. now rewrite Nat.add_0_r.
      * rewrite <- Nat.add_succ_comm. now apply H.
    + intros H; split.
      * specialize (H 0 g eq_refl). rewrite Nat.add_0_r in H. rewrite H.
        apply eqb_reflx.
      * intros j g' E. rewrite Nat.add_succ_comm. now apply (H (S j)).
Qed.

Lemma only_match_spec (l : list Field) (i : nat) (x : number) :
  only_match l i x = true <->
  forall j g, nth_error l j = Some g -> (id g === x) = (j =? i)%nat.
Proof. apply (only_from_spec 0). Qed.

Lemma only_from_past (k : nat) (l : list Field) (i : nat) (x : number) :
  only_from k l i x = true -> i < k ->
  forall g, In g l -> (id g === x) = false.
Proof.
  revert k; induction l as [|g l IH]; simpl; intros k H Hk g' Hin.
  - contradiction.
  - apply andb_true_iff in H as [H0 H]. apply eqb_prop in H0.
    destruct Hin as [<-|Hin].
    + rewrite H0. apply Nat.eqb_neq. lia.
    + apply (IH (S k)); auto.
Qed.

Lemma map_no_match (l : list Field) (x : number) (u : Field) :
  (forall f, In f l -> (id f === x) = false) ->
  map (fun g => if id g === x then u else g) l = l.
Proof.
  induction l as [|g l IH]; simpl; intros H; auto.
  rewrite (H g (or_introl eq_refl)). f_equal. apply IH. auto.
Qed.

Lemma filter_no_match (l : list Field) (x : number) :
  (forall f, In f l -> (id f === x) = false) ->
  filter (fun g => id g !== x) l = l.
Proof.
  induction l as [|g l IH]; simpl; intros H; auto.
  rewrite (H g (or_introl eq_refl)). simpl. f_equal. apply IH. auto.
Qed.

(** [map] with a test that singles out index [i] is replacement at [i]. *)
Lemma map_only_from (k : nat) (l : list Field) (i d : nat) (x : number) (u : Field) :
  only_from k l i x = true -> i = k + d -> d < List.length l ->
  map (fun g => if id g === x then u else g) l = replace_nth d u l.
Proof.
  revert k d; induction l as [|g l IH]; simpl; intros k d H Hi Hd.
  - lia.
  - apply andb_true_iff in H as [H0 H]. apply eqb_prop in H0. rewrite H0.
    destruct d as [|d].
    + replace (k =? i)%nat with true by (symmetry; apply Nat.eqb_eq; lia).
      f_equal. apply map_no_match. apply (only_from_past (S k) l i x H). lia.
    + replace (k =? i)%nat with false by (symmetry; apply Nat.eqb_neq; lia).
      f_equal. apply (IH (S k)); auto; lia.
Qed.

Lemma map_only_match (l : list Field) (i : nat) (x : number) (u : Field) :
  only_match l i x = true -> i < List.length l ->
  map (fun g => if id g === x then u else g) l = replace_nth i u l.
Proof.
  intros H Hi. apply (map_only_from 0 l i i x u H); auto.
Qed.

(** [filter] with a test that singles out index [i] is removal at [i]. *)
Lemma filter_only_from (k : nat) (l : list Field) (i d : nat) (x : number) :
  only_from k l i x = true -> i = k + d -> d < List.length l ->
  filter (fun g => id g !== x) l = remove_nth d l.
Proof.
  revert k d; induction l as [|g l IH]; simpl; intros k d H Hi Hd.
  - lia.
  - apply andb_true_iff in H as [H0 H]. apply eqb_prop in H0. rewrite H0.
    destruct d as [|d].
    + replace (k =? i)%nat with true by (symmetry; apply Nat.eqb_eq; lia).
      simpl. apply filter_no_match. apply (only_from_past (S k) l i x H). lia.
    + replace (k =? i)%nat with false by (symmetry; apply Nat.eqb_neq; lia).
      simpl. f_equal. apply (IH (S k)); auto; lia.
Qed.

Lemma filter_only_match (l : list Field) (i : nat) (x : number) :
  only_match l i x = true -> i < List.length l ->
  filter (fun g => id g !== x) l = remove_nth i l.
Proof.
  intros H Hi. apply (filter_only_from 0 l i i x H); auto.
Qed.

Lemma nth_error_split_at {A} (l : list A) (i : nat) (x : A) :
  nth_error l i = Some x -> l = firstn i l ++ x :: skipn (S i) l.
Proof.
  revert i; induction l as [|y l IH]; intros [|i]; simpl; intros H; try discriminate.
  - now inversion H.
  - f_equal. now apply IH.
Qed.

Lemma replace_nth_split {A} (l : list A) (i : nat) (x y : A) :
  nth_error l i = Some x -> replace_nth i y l = firstn i l ++ y :: skipn (S i) l.
Proof.
  revert i; induction l as [|z l IH]; intros [|i]; simpl; intros H; try discriminate.
  - reflexivity.
  - f_equal. now apply IH.
Qed.

Lemma remove_nth_split {A} (l : list A) (i : nat) (x : A) :
  nth_error l i = Some x -> remove_nth i l = firstn i l ++ skipn (S i) l.
Proof.
  revert i; induction l as [|z l IH]; intros [|i]; simpl; intros H; try discriminate.
  - reflexivity.
  - f_equal. now apply IH.
Qed.

Lemma nth_error_in_range {A} (l : list A) (i : nat) (x : A) :
  nth_error l i = Some x -> i < List.length l.
Proof. intros H. apply nth_error_Some. congruence. Qed.

(** ** The callback chain of the rendered rows *)

(** Calling [onUpdate] of the row at [rest] below the row [p] calls
    [onUpdate] of [p] with the field of [p] rebuilt around the replaced
    descendant. *)
Lemma FieldRow_onUpdate (rest : list nat) :
  forall (p q : Props) (u : Field),
    FieldRow p rest = Some q -> rest <> [] ->
    addressable (children (field p)) rest (id u) = true ->
    onUpdate q u =
    onUpdate p (with_children (field p) (replace_at rest u (children (field p)))).
Proof.
  induction rest as [|i rest IH]; intros p q u Hrow Hne Hadr; [congruence|].
  simpl in Hrow. destruct (type (field p) =? "nested"); [|discriminate].
  cbn [addressable] in Hadr.
  destruct (nth_error (children (field p)) i) as [c|] eqn:Ec; [|discriminate].
  pose proof (nth_error_in_range _ _ _ Ec) as Hi.
  destruct rest as [|i' rest'].
  - simpl in Hrow. inversion Hrow; subst q. cbn [onUpdate replace_at].
    unfold handleChildUpdate. rewrite (map_only_match _ i); auto.
  - apply andb_true_iff in Hadr as [Hc Hadr].
    rewrite (IH _ q u Hrow) by (cbn [field]; auto; discriminate).
    cbn [onUpdate field replace_at]. rewrite Ec.
    unfold handleChildUpdate. cbn [id with_children].
    rewrite (map_only_match _ i); auto.
Qed.

(** Calling [onRemove] of the row at [rest] below the row [p] calls
    [onUpdate] of [p] with the field of [p] rebuilt without that
    descendant. *)
Lemma FieldRow_onRemove (rest : list nat) :
  forall (p q : Props),
    FieldRow p rest = Some q -> rest <> [] ->
    addressable (children (field p)) rest (id (field q)) = true ->
    onRemove q =
    onUpdate p (with_children (field p) (remove_at rest (children (field p)))).
Proof.
  induction rest as [|i rest IH]; intros p q Hrow Hne Hadr; [congruence|].
  simpl in Hrow. destruct (type (field p) =? "nested"); [|discriminate].
  cbn [addressable] in Hadr.
  destruct (nth_error (children (field p)) i) as [c|] eqn:Ec; [|discriminate].
  pose proof (nth_error_in_range _ _ _ Ec) as Hi.
  destruct rest as [|i' rest'].
  - simpl in Hrow. inversion Hrow; subst q. cbn [onRemove remove_at field] in *.
    unfold handleChildRemove. rewrite (filter_only_match _ i); auto.
  - apply andb_true_iff in Hadr as [Hc Hadr].
    rewrite (IH _ q Hrow) by (cbn [field]; auto; discriminate).
    cbn [onUpdate field remove_at]. rewrite Ec.
    unfold handleChildUpdate. cbn [id with_children].
    rewrite (map_only_match _ i); auto.
Qed.

Lemma FieldRow_field (rest : list nat) :
  forall (p q : Props),
    FieldRow p rest = Some q -> rest <> [] ->
    node_at (children (field p)) rest = Some (field q).
Proof.
  induction rest as [|i rest IH]; intros p q Hrow Hne; [congruence|].
  simpl in Hrow. destruct (type (field p) =? "nested"); [|discriminate].
  cbn [node_at].
  destruct (nth_error (children (field p)) i) as [c|] eqn:Ec; [|discriminate].
  destruct rest as [|i' rest'].
  - simpl in Hrow. now inversion Hrow.
  - apply (IH _ q Hrow). discriminate.
Qed.

Lemma SchemaBuilder_field (fields : list Field) (path : list nat) (q : Props) :
  SchemaBuilder fields path = Some q -> node_at fields path = Some (field q).
Proof.
  destruct path as [|i rest]; simpl; [discriminate|].
  destruct (nth_error fields i) as [f|] eqn:Ef; [|discriminate].
  destruct rest as [|i' rest']; intros Hrow.
  - simpl in Hrow. now inversion Hrow.
  - apply (FieldRow_field _ _ q Hrow). discriminate.
Qed.

Lemma SchemaBuilder_onUpdate (fields : list Field) (path : list nat) (q : Props) (u : Field) :
  SchemaBuilder fields path = Some q ->
  addressable fields path (id u) = true ->
  onUpdate q u = replace_at path u fields.
Proof.
  destruct path as [|i rest]; simpl; [discriminate|].
  destruct (nth_error fields i) as [f|] eqn:Ef; [|discriminate].
  pose proof (nth_error_in_range _ _ _ Ef) as Hi.
  destruct rest as [|i' rest']; intros Hrow Hadr.
  - simpl in Hrow. inversion Hrow; subst q. cbn [onUpdate].
    unfold updateField. rewrite (map_only_match _ i); auto.
  - apply andb_true_iff in Hadr as [Hc Hadr].
    rewrite (FieldRow_onUpdate _ _ q u Hrow) by (cbn [field]; auto; discriminate).
    cbn [onUpdate field]. unfold updateField. cbn [id with_children].
    rewrite (map_only_match _ i); auto.
Qed.

Lemma SchemaBuilder_onRemove (fields : list Field) (path : list nat) (q : Props) :
  SchemaBuilder fields path = Some q ->
  addressable fields path (id (field q)) = true ->
  onRemove q = remove_at path fields.
Proof.
  destruct path as [|i rest]; simpl; [discriminate|].
  destruct (nth_error fields i) as [f|] eqn:Ef; [|discriminate].
  pose proof (nth_error_in_range _ _ _ Ef) as Hi.
  destruct rest as [|i' rest']; intros Hrow Hadr.
  - simpl in Hrow. inversion Hrow; subst q. cbn [onRemove field] in *.
    unfold removeField. rewrite (filter_only_match _ i); auto.
  - apply andb_true_iff in Hadr as [Hc Hadr].
    rewrite (FieldRow_onRemove _ _ q Hrow) by (cbn [field]; auto; discriminate).
    cbn [onUpdate field]. unfold updateField. cbn [id with_children].
    rewrite (map_only_match _ i); auto.
Qed.

(** ** What replacing and removing at a path leave alone *)

Lemma replace_at_length (path : list nat) (u : Field) :
  forall fields, List.length (replace_at path u fields) = List.length fields.
Proof.
  destruct path as [|i [|i' rest]]; intros fields; cbn [replace_at]; auto.
  - apply replace_nth_length.
  - destruct (nth_error fields i); auto. apply replace_nth_length.
Qed.

Lemma node_at_replace_at_same (path : list nat) (u : Field) :
  forall fields x,
    node_at fields path = Some x ->
    node_at (replace_at path u fields) path = Some u.
Proof.
  induction path as [|i rest IH]; intros fields x H; [discriminate|].
  cbn [node_at replace_at] in *.
  destruct (nth_error fields i) as [f|] eqn:Ef; [|discriminate].
  destruct rest as [|i' rest'].
  - now rewrite (nth_error_replace_nth_same i u f fields Ef).
  - rewrite (nth_error_replace_nth_same i _ f fields Ef). cbn [children with_children].
    now apply (IH (children f) x).
Qed.

Lemma node_at_replace_at_apart (path : list nat) (u : Field) :
  forall p fields,
    apart p path = true ->
    node_at (replace_at path u fields) p = node_at fields p.
Proof.
  induction path as [|i rest IH]; intros [|j p'] fields H; try discriminate.
  cbn [apart] in H. cbn [node_at replace_at].
  destruct (Nat.eqb_spec j i) as [->|Hne].
  - destruct rest as [|i' rest']; [destruct p'; discriminate|].
    destruct (nth_error fields i) as [f|] eqn:Ef; [|now rewrite Ef].
    rewrite (nth_error_replace_nth_same i _ f fields Ef).
    destruct p' as [|j' p'']; [discriminate|].
    cbn [children with_children]. now apply IH.
  - assert (Hnth : forall y, nth_error (replace_nth i y fields) j = nth_error fields j)
      by (intros y; apply nth_error_replace_nth_other; congruence).
    destruct rest as [|i' rest']; [now rewrite Hnth|].
    destruct (nth_error fields i); [now rewrite Hnth|reflexivity].
Qed.

Lemma node_at_replace_at_ancestor (p : list nat) (u : Field) :
  forall d fields a,
    p <> [] -> d <> [] ->
    node_at fields p = Some a ->
    exists c, node_at (replace_at (p ++ d) u fields) p = Some (with_children a c).
Proof.
  induction p as [|i p' IH]; intros d fields a Hp Hd H; [congruence|].
  cbn [node_at] in H. rewrite <- app_comm_cons. cbn [replace_at node_at].
  destruct (nth_error fields i) as [f|] eqn:Ef; [|discriminate].
  destruct p' as [|i' p''].
  - inversion H; subst a. cbn [app]. destruct d as [|j d']; [congruence|].
    rewrite (nth_error_replace_nth_same i _ f fields Ef). eauto.
  - rewrite <- app_comm_cons.
    rewrite (nth_error_replace_nth_same i _ f fields Ef).
    cbn [children with_children]. rewrite app_comm_cons.
    apply IH; auto. discriminate.
Qed.

Lemma labels_of_with_children (f : Field) (c : list Field) :
  labels_of (with_children f c) = (id f, keyName f, type f) :: labels c.
Proof. reflexivity. Qed.

Lemma labels_of_eq (f : Field) :
  labels_of f = (id f, keyName f, type f) :: labels (children f).
Proof. now destruct f. Qed.

(** Removing at a path cuts the subtree's nodes out of the document order
    and keeps every other node, in order. *)
Lemma labels_remove_at (path : list nat) :
  forall fields x,
    node_at fields path = Some x ->
    exists pre post,
      labels fields = pre ++ labels_of x ++ post /\
      labels (remove_at path fields) = pre ++ post.
Proof.
  induction path as [|i rest IH]; intros fields x H; [discriminate|].
  cbn [node_at remove_at] in *.
  destruct (nth_error fields i) as [f|] eqn:Ef; [|discriminate].
  destruct rest as [|i' rest'].
  - inversion H; subst x.
    exists (labels (firstn i fields)), (labels (skipn (S i) fields)). split.
    + rewrite (nth_error_split_at fields i f Ef) at 1.
      unfold labels. rewrite flat_map_app. reflexivity.
    + rewrite (remove_nth_split fields i f Ef). unfold labels. now rewrite flat_map_app.
  - destruct (IH (children f) x H) as (pre & post & E1 & E2).
    exists (labels (firstn i fields) ++ (id f, keyName f, type f) :: pre),
           (post ++ labels (skipn (S i) fields)). split.
    + rewrite (nth_error_split_at fields i f Ef) at 1.
      unfold labels at 1. rewrite flat_map_app. cbn [flat_map].
      rewrite labels_of_eq, E1. fold (labels (firstn i fields)).
      fold (labels (skipn (S i) fields)).
      rewrite <- !app_assoc. cbn [app]. now rewrite <- !app_assoc.
    + rewrite (replace_nth_split fields i f _ Ef).
      unfold labels at 1. rewrite flat_map_app. cbn [flat_map].
      rewrite labels_of_with_children, E2. fold (labels (firstn i fields)).
      fold (labels (skipn (S i) fields)).
      rewrite <- !app_assoc. cbn [app]. now rewrite <- !app_assoc.
Qed.

(** ** Unique ids make every node addressable *)

Lemma all_distinct_app (xs ys : list number) :
  all_distinct (xs ++ ys) = true ->
  all_distinct xs = true /\ all_distinct ys = true /\
  forall x y, In x xs -> In y ys -> (x === y) = false /\ (y === x) = false.
Proof.
  induction xs as [|a xs IH]; cbn [app all_distinct]; intros H.
  - split; [reflexivity|]. split; [assumption|]. intros x y [].
  - apply andb_true_iff in H as [H H3]. apply andb_true_iff in H as [H1 H2].
    rewrite forallb_app in H2. apply andb_true_iff in H2 as [H2 H2'].
    destruct (IH H3) as (Hx & Hy & Hxy). rewrite H1, H2, Hx.
    split; [reflexivity|]. split; [assumption|].
    intros x y Hx' Hy'. destruct Hx' as [<-|Hx']; [|now apply Hxy].
    rewrite forallb_forall in H2'. specialize (H2' y Hy').
    apply andb_true_iff in H2' as [E1 E2]. apply negb_true_iff in E1, E2. auto.
Qed.

Lemma ids_app (a b : list Field) : ids (a ++ b) = ids a ++ ids b.
Proof. unfold ids, labels. now rewrite flat_map_app, map_app. Qed.

Lemma ids_cons (f : Field) (fields : list Field) :
  ids (f :: fields) = id f :: ids (children f) ++ ids fields.
Proof.
  unfold ids, labels. cbn [flat_map]. rewrite map_app, labels_of_eq. reflexivity.
Qed.

Lemma In_ids (g : Field) (fields : list Field) : In g fields -> In (id g) (ids fields).
Proof.
  induction fields as [|f fields IH]; intros H; [destruct H|].
  destruct H as [<-|H].
  - rewrite ids_cons. now left.
  - rewrite ids_cons. right. apply in_or_app. right. now apply IH.
Qed.

Lemma only_match_of_distinct (fields : list Field) (i : nat) (f : Field) :
  all_distinct (ids fields) = true ->
  nth_error fields i = Some f ->
  only_match fields i (id f) = true /\ all_distinct (ids (children f)) = true.
Proof.
  intros Hd Hf. pose proof (nth_error_split_at fields i f Hf) as E.
  rewrite E, ids_app, ids_cons in Hd.
  apply all_distinct_app in Hd as (_ & Hd & Hpre).
  cbn [all_distinct] in Hd. apply andb_true_iff in Hd as [Hd Hd3].
  apply andb_true_iff in Hd as [Hrefl Hpost].
  apply all_distinct_app in Hd3 as (Hc & _ & _). split; auto.
  apply only_match_spec. intros j g Hg.
  destruct (Nat.eqb_spec j i) as [->|Hne].
  - assert (g = f) by congruence. now subst g.
  - destruct (Nat.lt_ge_cases j i) as [Hlt|Hge].
    + apply (Hpre (id g) (id f)); [|now left].
      apply In_ids. apply (nth_error_In _ j). now rewrite nth_error_firstn, (proj2 (Nat.ltb_lt j i) Hlt).
    + rewrite forallb_forall in Hpost.
      assert (Hin : In (id g) (ids (children f) ++ ids (skipn (S i) fields))).
      { apply in_or_app. right. apply In_ids.
        apply (nth_error_In _ (j - S i)). rewrite nth_error_skipn.
        now replace (S i + (j - S i)) with j by lia. }
      specialize (Hpost _ Hin). apply andb_true_iff in Hpost as [_ Hp].
      now apply negb_true_iff in Hp.
Qed.

(** In a forest whose ids are pairwise different, every node is
    addressable by its id. *)
Lemma addressable_of_distinct (path : list nat) :
  forall fields X,
    all_distinct (ids fields) = true ->
    node_at fields path = Some X ->
    addressable fields path (id X) = true.
Proof.
  induction path as [|i rest IH]; intros fields X Hd HX; [discriminate|].
  cbn [node_at addressable] in *.
  destruct (nth_error fields i) as [f|] eqn:Hf; [|discriminate].
  destruct (only_match_of_distinct fields i f Hd Hf) as [Honly Hc].
  destruct rest as [|i2 rest2].
  - now inversion HX; subst.
  - rewrite Honly. cbn [andb]. now apply IH.
Qed.

(** ** updateField and the rows' onUpdate *)

Lemma updateField_nth (fields : list Field) (u : Field) (j : nat) :
  nth_error (updateField fields u) j =
  option_map (fun f => if id f === id u then u else f) (nth_error fields j).
Proof. unfold updateField. apply nth_error_map. Qed.

(** [updateField] compares the root nodes only: when none of them has the
    id of [u], the state stays as it is, whatever the nested nodes are. *)
Lemma updateField_no_root_match (fields : list Field) (u : Field) :
  (forall f, In f fields -> (id f === id u) = false) ->
  updateField fields u = fields.
Proof. apply map_no_match. Qed.

(** C1, as stated, fails: on the initial tree the node with id 2 sits below
    the root node [user]; [updateField] with a new value for it returns the
    tree unchanged and the node is not replaced. *)
Lemma updateField_misses_nested_node :
  let u := mkField 2%float "fullName" "string" [] in
  node_at initialFields [0; 0] = Some (mkField 2%float "name" "string" []) /\
  (id (mkField 2%float "name" "string" []) === id u) = true /\
  updateField initialFields u = initialFields /\
  node_at (updateField initialFields u) [0; 0] <> Some u.
Proof.
  cbv zeta. repeat split; try reflexivity.
  vm_compute. discriminate.
Qed.

(** C1 (amended): [updateField] replaces a root node only; a node at any
    depth is replaced by the [onUpdate] of its rendered row, which is
    [updateField] for a root row and the chain of [handleChildUpdate] of the
    ancestors ending in [updateField] for a nested row.  In a tree whose ids
    are pairwise different, calling that [onUpdate] with a field [u] that
    carries the id of the row's node sets the state to the forest with the
    node replaced by [u] at the same position: the length of every sequence
    is kept, nodes that are neither on the path nor below the replaced node
    are unchanged, and each ancestor keeps its id, name and type. *)
Theorem onUpdate_replaces_node_at_path
  (fields : list Field) (path : list nat) (q : Props) (u : Field) :
  SchemaBuilder fields path = Some q ->
  all_distinct (ids fields) = true ->
  id u = id (field q) ->
  onUpdate q u = replace_at path u fields /\
  (forall i, path = [i] -> onUpdate q u = updateField fields u) /\
  List.length (onUpdate q u) = List.length fields /\
  node_at fields path = Some (field q) /\
  node_at (onUpdate q u) path = Some u /\
  (forall p, apart p path = true -> node_at (onUpdate q u) p = node_at fields p) /\
  (forall p d a, p <> [] -> d <> [] -> path = p ++ d ->
     node_at fields p = Some a ->
     exists c, node_at (onUpdate q u) p = Some (with_children a c)).
Proof.
  intros Hrow Hd Hid.
  pose proof (SchemaBuilder_field fields path q Hrow) as Hq.
  pose proof (addressable_of_distinct path fields (field q) Hd Hq) as Hadr.
  rewrite <- Hid in Hadr.
  pose proof (SchemaBuilder_onUpdate fields path q u Hrow Hadr) as E.
  rewrite E. repeat split; auto.
  - intros i ->. cbn [SchemaBuilder] in Hrow.
    destruct (nth_error fields i); [|discriminate].
    cbn in Hrow. inversion Hrow; subst q. now rewrite <- E.
  - apply replace_at_length.
  - now apply (node_at_replace_at_same path u fields (field q)).
  - intros p Hp. now apply node_at_replace_at_apart.
  - intros p d a Hp Hd' -> Ha. now apply node_at_replace_at_ancestor.
Qed.

Lemma onUpdate_replaces_node_at_path_witness :
  let u := mkField 6%float "postcode" "number" [] in
  exists q,
    SchemaBuilder initialFields [0; 2; 1] = Some q /\
    all_distinct (ids initialFields) = true /\
    id u = id (field q) /\
    onUpdate q u =
    [ mkField 1%float "user" "nested"
        [ mkField 2%float "name" "string" [];
          mkField 3%float "age" "number" [];
          mkField 4%float "address" "nested"
            [ mkField 5%float "street" "string" []; u ] ];
      mkField 7%float "productId" "string" [] ].
Proof.
  cbv zeta. eexists. split; [reflexivity|]. split; [reflexivity|].
  split; [reflexivity|].
  exact (proj1 (onUpdate_replaces_node_at_path initialFields [0; 2; 1] _
                  (mkField 6%float "postcode" "number" []) eq_refl eq_refl eq_refl)).
Defined.

(** ** removeField and the rows' onRemove *)

Lemma removeField_In (fields : list Field) (fieldId : number) (f : Field) :
  In f (removeField fields fieldId) <-> In f fields /\ (id f === fieldId) = false.
Proof.
  unfold removeField. rewrite filter_In, negb_true_iff. reflexivity.
Qed.

(** C2, as stated, fails: on the initial tree the node with id 2 sits below
    the root node [user]; [removeField] with that id returns the tree
    unchanged and the node is still there. *)
Lemma removeField_misses_nested_node :
  node_at initialFields [0; 0] = Some (mkField 2%float "name" "string" []) /\
  removeField initialFields 2%float = initialFields /\
  node_at (removeField initialFields 2%float) [0; 0] =
    Some (mkField 2%float "name" "string" []).
Proof. repeat split; reflexivity. Qed.

(** C2 (amended): [removeField] filters the root sequence only; a node at
    any depth is removed by the [onRemove] of its rendered row, which is
    [removeField] for a root row and, for a nested row, [handleChildRemove]
    of the parent followed by the chain of [handleChildUpdate] of the
    ancestors ending in [updateField].  In a tree whose ids are pairwise
    different, [onRemove] sets the state to the forest without the node: its
    whole subtree leaves the document order, every other node stays in
    order.  [removeField] with an id that no root node has leaves the state
    unchanged. *)
Theorem onRemove_removes_subtree_at_path
  (fields : list Field) (path : list nat) (q : Props) :
  SchemaBuilder fields path = Some q ->
  all_distinct (ids fields) = true ->
  onRemove q = remove_at path fields /\
  (forall i, path = [i] -> onRemove q = removeField fields (id (field q))) /\
  node_at fields path = Some (field q) /\
  (exists pre post,
     labels fields = pre ++ labels_of (field q) ++ post /\
     labels (onRemove q) = pre ++ post) /\
  (forall fieldId,
     (forall f, In f fields -> (id f === fieldId) = false) ->
     removeField fields fieldId = fields).
Proof.
  intros Hrow Hd.
  pose proof (SchemaBuilder_field fields path q Hrow) as Hq.
  pose proof (addressable_of_distinct path fields (field q) Hd Hq) as Hadr.
  pose proof (SchemaBuilder_onRemove fields path q Hrow Hadr) as E.
  rewrite E. repeat split; auto.
  - intros i ->. cbn [SchemaBuilder] in Hrow.
    destruct (nth_error fields i); [|discriminate].
    cbn in Hrow. inversion Hrow; subst q. now rewrite <- E.
  - now apply labels_remove_at.
  - intros fieldId H. now apply filter_no_match.
Qed.

Lemma onRemove_removes_subtree_at_path_witness :
  exists q,
    SchemaBuilder initialFields [0; 2] = Some q /\
    all_distinct (ids initialFields) = true /\
    onRemove q =
    [ mkField 1%float "user" "nested"
        [ mkField 2%float "name" "string" [];
          mkField 3%float "age" "number" [] ];
      mkField 7%float "productId" "string" [] ].
Proof.
  eexists. split; [reflexivity|]. split; [reflexivity|].
  exact (proj1 (onRemove_removes_subtree_at_path initialFields [0; 2] _
                  eq_refl eq_refl)).
Defined.

(** ** generateSchema: one step of the loop *)

Lemma visit_eq (schema : object JSON) (f : Field) :
  visit schema f =
  if keyName f =? "" then schema
  else if recognized (type f) then js_set schema (keyName f) (value_of f)
  else schema.
Proof.
  destruct f as [i k t c]. cbn [visit keyName type].
  unfold recognized, value_of, generateSchema. cbn [type children].
  destruct (k =? ""); auto.
  destruct (t =? "string"), (t =? "number"), (t =? "nested"); reflexivity.
Qed.

Lemma visit_skip (schema : object JSON) (f : Field) :
  emits f = false -> visit schema f = schema.
Proof.
  intros H. rewrite visit_eq. unfold emits in H.
  destruct (keyName f =? ""); auto.
  destruct (recognized (type f)); auto.
  unfold js_set. destruct (keyName f =? "__proto__"); auto. discriminate.
Qed.

Lemma visit_emit (schema : object JSON) (f : Field) :
  emits f = true ->
  visit schema f = replace_or_append schema (keyName f) (value_of f).
Proof.
  intros H. rewrite visit_eq. unfold emits in H.
  destruct (keyName f =? ""); [discriminate|].
  destruct (recognized (type f)); [|now rewrite andb_false_r in H].
  unfold js_set. destruct (keyName f =? "__proto__"); [discriminate|reflexivity].
Qed.

Lemma generateSchema_app (pre post : list Field) :
  generateSchema (pre ++ post) = fold_left visit post (generateSchema pre).
Proof. apply fold_left_app. Qed.

(** A field that does not emit can be dropped from the sequence. *)
Lemma generateSchema_skip (pre post : list Field) (f : Field) :
  emits f = false ->
  generateSchema (pre ++ f :: post) = generateSchema (pre ++ post).
Proof.
  intros H. rewrite !generateSchema_app. cbn [fold_left]. now rewrite visit_skip.
Qed.

(** ** The own properties of the projected object *)

Lemma mem_In (k : string) (ks : list string) : mem k ks = true <-> In k ks.
Proof.
  unfold mem. rewrite existsb_exists. split.
  - intros (x & Hin & E). apply String.eqb_eq in E. now subst.
  - intros H. exists k. split; auto. apply String.eqb_refl.
Qed.

Lemma mem_not_In (k : string) (ks : list string) : mem k ks = false <-> ~ In k ks.
Proof.
  rewrite <- mem_In. destruct (mem k ks); split; congruence.
Qed.

Lemma keys_replace_or_append {V} (o : object V) (k : string) (v : V) :
  keys (replace_or_append o k v) = if mem k (keys o) then keys o else keys o ++ [k].
Proof.
  induction o as [|[k' v'] o IH]; cbn [replace_or_append keys map fst mem existsb app].
  - reflexivity.
  - rewrite (String.eqb_sym k k'). destruct (k' =? k); cbn [orb map fst].
    + reflexivity.
    + fold (keys (replace_or_append o k v)). rewrite IH.
      fold (keys o). fold (mem k (keys o)). now destruct (mem k (keys o)).
Qed.

Lemma get_replace_or_append_same {V} (o : object V) (k : string) (v : V) :
  get (replace_or_append o k v) k = Some v.
Proof.
  induction o as [|[k' v'] o IH]; cbn [replace_or_append get].
  - now rewrite String.eqb_refl.
  - destruct (k' =? k) eqn:E; cbn [get]; rewrite E; auto.
Qed.

Lemma get_replace_or_append_other {V} (o : object V) (k k' : string) (v : V) :
  (k =? k') = false -> get (replace_or_append o k v) k' = get o k'.
Proof.
  intros Hne. induction o as [|[k0 v0] o IH]; cbn [replace_or_append get].
  - now rewrite Hne.
  - destruct (k0 =? k) eqn:E; cbn [get].
    + apply String.eqb_eq in E. subst k0. now rewrite Hne.
    + now rewrite IH.
Qed.

Lemma keys_fold_visit (fields : list Field) :
  forall acc : object JSON,
    keys (fold_left visit fields acc) =
    keys acc ++ first_occurrences (keys acc) (emitted fields).
Proof.
  induction fields as [|f fields IH]; intros acc; cbn [fold_left].
  - unfold emitted. cbn. now rewrite app_nil_r.
  - rewrite IH. unfold emitted. cbn [filter]. destruct (emits f) eqn:E.
    + rewrite (visit_emit acc f E), keys_replace_or_append.
      cbn [map first_occurrences].
      destruct (mem (keyName f) (keys acc)); auto.
      now rewrite <- app_assoc.
    + now rewrite (visit_skip acc f E).
Qed.

(** The properties of the projected object, in creation order, are the
    emitted names at their first places. *)
Lemma keys_generateSchema (fields : list Field) :
  keys (generateSchema fields) = first_occurrences [] (emitted fields).
Proof. unfold generateSchema. now rewrite keys_fold_visit. Qed.

Lemma first_occurrences_In (ks : list string) :
  forall seen k, In k (first_occurrences seen ks) <-> In k ks /\ ~ In k seen.
Proof.
  induction ks as [|x ks IH]; intros seen k; cbn [first_occurrences In].
  - tauto.
  - destruct (mem x seen) eqn:E.
    + apply mem_In in E. rewrite IH. split; [tauto|].
      intros [[->|H] Hn]; tauto.
    + apply mem_not_In in E. cbn [In]. rewrite IH, in_app_iff. cbn [In].
      destruct (string_dec x k) as [->|Hne]; tauto.
Qed.

Lemma first_occurrences_NoDup (ks : list string) :
  forall seen, NoDup (first_occurrences seen ks).
Proof.
  induction ks as [|x ks IH]; intros seen; cbn [first_occurrences].
  - constructor.
  - destruct (mem x seen); auto. constructor; auto.
    rewrite first_occurrences_In, in_app_iff. cbn. tauto.
Qed.

Lemma first_occurrences_fresh (ks : list string) :
  forall seen,
    NoDup ks -> (forall k, In k ks -> ~ In k seen) ->
    first_occurrences seen ks = ks.
Proof.
  induction ks as [|x ks IH]; intros seen Hnd Hseen; cbn [first_occurrences]; auto.
  inversion Hnd as [|? ? Hx Hnd']; subst.
  replace (mem x seen) with false
    by (symmetry; apply mem_not_In; apply Hseen; now left).
  f_equal. apply IH; auto.
  intros k Hk. rewrite in_app_iff. cbn. intros [H|[->|[]]]; auto.
  apply (Hseen k); auto. now right.
Qed.

(** ** Enumeration order *)

Lemma insert_index_perm (n : N) (k : string) (l : list (N * string)) :
  Permutation (insert_index n k l) ((n, k) :: l).
Proof.
  induction l as [|[m k'] l IH]; cbn [insert_index]; auto.
  destruct (n <? m)%N; auto.
  rewrite IH. apply perm_swap.
Qed.

Lemma index_keys_perm (ks : list string) :
  Permutation (map snd (index_keys ks)) (filter is_array_index ks).
Proof.
  induction ks as [|k ks IH]; cbn [index_keys filter]; auto.
  unfold is_array_index at 1. destruct (array_index k) as [n|]; auto.
  rewrite insert_index_perm. cbn [map snd]. now constructor.
Qed.

Lemma filter_partition_perm {A} (p : A -> bool) (l : list A) :
  Permutation (filter p l ++ filter (fun x => negb (p x)) l) l.
Proof.
  induction l as [|x l IH]; cbn [filter]; auto.
  destruct (p x); cbn [negb app].
  - now constructor.
  - rewrite <- Permutation_middle. now constructor.
Qed.

(** Enumeration reorders the keys and neither adds nor drops one. *)
Lemma enumerate_perm (ks : list string) : Permutation (enumerate ks) ks.
Proof.
  unfold enumerate, string_keys. rewrite index_keys_perm.
  apply filter_partition_perm.
Qed.

(** Without array indices, enumeration order is creation order. *)
Lemma enumerate_no_index (ks : list string) :
  Forall (fun k => is_array_index k = false) ks -> enumerate ks = ks.
Proof.
  intros H. unfold enumerate, string_keys.
  assert (Hnil : index_keys ks = []).
  { induction H as [|k ks Hk H IH]; auto.
    cbn [index_keys]. unfold is_array_index in Hk.
    destruct (array_index k); [discriminate|auto]. }
  rewrite Hnil. cbn [map app].
  induction H as [|k ks Hk H IH]; auto.
  cbn [filter]. rewrite Hk. cbn [negb]. f_equal. apply IH.
  cbn [index_keys] in Hnil. unfold is_array_index in Hk.
  destruct (array_index k); [discriminate|auto].
Qed.

Lemma own_keys_generateSchema (fields : list Field) :
  own_keys (generateSchema fields) = enumerate (first_occurrences [] (emitted fields)).
Proof. unfold own_keys. now rewrite keys_generateSchema. Qed.

Lemma In_own_keys_generateSchema (fields : list Field) (k : string) :
  In k (own_keys (generateSchema fields)) <-> In k (emitted fields).
Proof.
  rewrite own_keys_generateSchema. split.
  - intros H. apply (Permutation_in _ (enumerate_perm _)) in H.
    now apply first_occurrences_In in H.
  - intros H. apply (Permutation_in _ (Permutation_sym (enumerate_perm _))).
    apply first_occurrences_In. auto.
Qed.

Lemma NoDup_own_keys_generateSchema (fields : list Field) :
  NoDup (own_keys (generateSchema fields)).
Proof.
  rewrite own_keys_generateSchema.
  apply (Permutation_NoDup (Permutation_sym (enumerate_perm _))).
  apply first_occurrences_NoDup.
Qed.

Lemma In_emitted (fields : list Field) (k : string) :
  In k (emitted fields) <-> exists f, In f fields /\ emits f = true /\ keyName f = k.
Proof.
  unfold emitted. rewrite in_map_iff. split.
  - intros (f & E & Hf). apply filter_In in Hf. exists f. tauto.
  - intros (f & Hin & He & E). exists f. split; auto. apply filter_In. auto.
Qed.

Lemma get_fold_visit (k : string) (fields : list Field) :
  forall (acc : object JSON) (r : option Field),
    get acc k = option_map value_of r ->
    get (fold_left visit fields acc) k =
    option_map value_of
      (fold_left (fun r f => if emits f && (keyName f =? k) then Some f else r) fields r).
Proof.
  induction fields as [|f fields IH]; intros acc r H; cbn [fold_left]; auto.
  apply IH. destruct (emits f) eqn:E; cbn [andb].
  - rewrite (visit_emit acc f E). destruct (keyName f =? k) eqn:Ek.
    + apply String.eqb_eq in Ek. subst k. apply get_replace_or_append_same.
    + now rewrite get_replace_or_append_other.
  - now rewrite (visit_skip acc f E).
Qed.

(** The value under a name is the one of the last field that emits it. *)
Lemma get_generateSchema (fields : list Field) (k : string) :
  get (generateSchema fields) k = option_map value_of (last_emitting k fields).
Proof. now apply get_fold_visit. Qed.

Lemma generateSchema_singleton (f : Field) :
  emits f = true -> generateSchema [f] = [(keyName f, value_of f)].
Proof. intros H. unfold generateSchema. cbn [fold_left]. now rewrite visit_emit. Qed.

(** ** C3: key order *)

(** C3, as stated, fails: a name that is an array index is enumerated before
    the names created earlier. *)
Lemma array_index_key_comes_first :
  let fields := [ mkField 1%float "b" "string" []; mkField 2%float "1" "string" [] ] in
  emitted fields = ["b"; "1"] /\
  own_keys (generateSchema fields) = ["1"; "b"] /\
  own_keys (generateSchema fields) <> emitted fields.
Proof. cbv zeta. repeat split; try reflexivity. vm_compute. discriminate. Qed.

(** C3 (amended): when none of the emitted names is an array index, the
    keys of the projected object are enumerated in the order of the fields
    that emit them, a name emitted more than once standing at the place of
    its first field; so when the emitted names are also pairwise different
    the keys are exactly the emitted names in sequence order. *)
Theorem generateSchema_key_order (fields : list Field) :
  Forall (fun k => is_array_index k = false) (emitted fields) ->
  own_keys (generateSchema fields) = first_occurrences [] (emitted fields) /\
  (NoDup (emitted fields) -> own_keys (generateSchema fields) = emitted fields).
Proof.
  intros Hidx. rewrite own_keys_generateSchema.
  assert (E : enumerate (first_occurrences [] (emitted fields)) =
              first_occurrences [] (emitted fields)).
  { apply enumerate_no_index. rewrite Forall_forall in *.
    intros k Hk. apply Hidx. now apply first_occurrences_In in Hk. }
  rewrite E. split; auto. intros Hnd. now apply first_occurrences_fresh.
Qed.

Lemma generateSchema_key_order_witness :
  own_keys (generateSchema
    [ mkField 1%float "a" "string" [];
      mkField 2%float "b" "number" [];
      mkField 3%float "c" "nested" [] ]) = ["a"; "b"; "c"].
Proof.
  apply (proj1 (generateSchema_key_order
    [ mkField 1%float "a" "string" [];
      mkField 2%float "b" "number" [];
      mkField 3%float "c" "nested" [] ] ltac:(repeat constructor))).
Defined.

(** ** C6: names that emit nothing *)

(** C6, as stated, fails for a blank name: the test [!field.keyName] is
    false for a name made of a space, and the field emits that key. *)
Lemma blank_keyName_is_emitted :
  let f := mkField 1%float " " "string" [] in
  is_blank (keyName f) = true /\
  generateSchema [f] = [(" ", JString "String (default)")] /\
  own_keys (generateSchema [f]) = [" "].
Proof. cbv zeta. repeat split; reflexivity. Qed.

(** C6 (amended): a field whose name is the empty string emits nothing,
    whatever its type: dropping it from the sequence leaves the projection
    the same, and the empty string is never a key of the projected object. *)
Theorem empty_keyName_emits_nothing (pre post : list Field) (f : Field) :
  keyName f = "" ->
  generateSchema (pre ++ f :: post) = generateSchema (pre ++ post) /\
  ~ In "" (own_keys (generateSchema (pre ++ f :: post))).
Proof.
  intros H. split.
  - apply generateSchema_skip. unfold emits. now rewrite H.
  - rewrite In_own_keys_generateSchema, In_emitted.
    intros (g & _ & He & Hg). unfold emits in He. now rewrite Hg in He.
Qed.

Lemma empty_keyName_emits_nothing_witness :
  generateSchema
    ([mkField 1%float "a" "string" []] ++
     mkField 2%float "" "nested" [mkField 3%float "x" "number" []] ::
     [mkField 4%float "b" "number" []]) =
  [("a", JString "String (default)"); ("b", JNumber 0%float)].
Proof.
  exact (proj1 (empty_keyName_emits_nothing
    [mkField 1%float "a" "string" []] [mkField 4%float "b" "number" []]
    (mkField 2%float "" "nested" [mkField 3%float "x" "number" []]) eq_refl)).
Defined.

(** ** C8 and C10: what a named field of a recognized type emits *)

(** A field that emits binds its name to its value, and the value stays
    until a later field emits under the same name. *)
Lemma emitting_field_binds_its_name (pre post : list Field) (f : Field) :
  emits f = true ->
  (forall g, In g post -> emits g = true -> keyName g <> keyName f) ->
  get (generateSchema (pre ++ f :: post)) (keyName f) = Some (value_of f) /\
  count_occ string_dec (own_keys (generateSchema (pre ++ f :: post))) (keyName f) = 1.
Proof.
  intros He Hpost. split.
  - rewrite get_generateSchema. unfold last_emitting. rewrite fold_left_app.
    cbn [fold_left]. rewrite He, String.eqb_refl. cbn [andb].
    induction post as [|g post IH]; cbn [fold_left]; auto.
    destruct (emits g) eqn:Eg; cbn [andb].
    + replace (keyName g =? keyName f) with false.
      * apply IH. intros g' Hin. apply Hpost. now right.
      * symmetry. apply String.eqb_neq. apply Hpost; auto. now left.
    + apply IH. intros g' Hin. apply Hpost. now right.
  - apply NoDup_count_occ'; [apply NoDup_own_keys_generateSchema|].
    apply In_own_keys_generateSchema, In_emitted. exists f. repeat split; auto.
    apply in_or_app. right. now left.
Qed.

(** The three values: the placeholder string, zero, and the projection of
    the children, which is the empty object when there are none. *)
Lemma value_of_cases (f : Field) :
  (type f = "string" -> value_of f = JString "String (default)") /\
  (type f = "number" -> value_of f = JNumber 0%float) /\
  (type f = "nested" -> value_of f = JObject (generateSchema (children f))) /\
  generateSchema [] = [].
Proof.
  unfold value_of. repeat split; intros H; rewrite H; reflexivity.
Qed.

(** C8 holds for every name but one.  The name [__proto__] is not empty,
    yet a field of that name emits no key, whatever its type: the assignment
    [schema["__proto__"] = v] reaches the setter of [Object.prototype] and
    creates no own property. *)
Theorem proto_keyName_emits_no_key :
  emits (mkField 1%float "__proto__" "string" []) = false /\
  generateSchema [mkField 1%float "__proto__" "string" []] = [] /\
  generateSchema [mkField 1%float "__proto__" "number" []] = [] /\
  generateSchema [mkField 1%float "__proto__" "nested"
                    [mkField 2%float "a" "string" []]] = [] /\
  get (generateSchema [mkField 1%float "__proto__" "string" []]) "__proto__" = None.
Proof. repeat split; reflexivity. Qed.

(** C10 holds for every name but one.  Two fields named [__proto__], each
    of a recognized type, emit no key at all, where the claim asks for
    exactly one key bound to the value of the last field. *)
Theorem repeated_proto_keyName_emits_no_key :
  let fields := [ mkField 1%float "__proto__" "string" [];
                  mkField 2%float "__proto__" "number" [] ] in
  own_keys (generateSchema fields) = [] /\
  count_occ string_dec (own_keys (generateSchema fields)) "__proto__" = 0 /\
  get (generateSchema fields) "__proto__" = None.
Proof. cbv zeta. repeat split; reflexivity. Qed.

(** * Facts about the store model *)

(** ** Induction over nested snapshots and values *)

Lemma Field_nested_ind (P : Field -> Prop) :
  (forall i k t c, Forall P c -> P (mkField i k t c)) ->
  forall f, P f.
Proof.
  intros H. fix IH 1. intros [i k t c]. apply H.
  induction c as [|g c IHc]; constructor; [apply IH|apply IHc].
Qed.

Lemma JSON_nested_ind (P : JSON -> Prop) :
  (forall s, P (JString s)) ->
  (forall n, P (JNumber n)) ->
  (forall props, Forall (fun p => P (snd p)) props -> P (JObject props)) ->
  forall j, P j.
Proof.
  intros Hs Hn Ho. fix IH 1. intros [s|n|props]; [apply Hs|apply Hn|].
  apply Ho. induction props as [|[k j] ps IHps]; constructor; [apply IH|apply IHps].
Qed.

(** ** Reading, allocating and writing *)

Lemma read_extends (h h' : Store.heap) (l : Store.loc) (c : Store.cell) :
  Store.extends h h' -> Store.read h l = Some c -> Store.read h' l = Some c.
Proof.
  intros [t ->] H. unfold Store.read in *. rewrite nth_error_app1; auto.
  apply nth_error_Some. congruence.
Qed.

Lemma read_in_range (h : Store.heap) (l : Store.loc) (c : Store.cell) :
  Store.read h l = Some c -> l < List.length h.
Proof. intros H. apply nth_error_Some. unfold Store.read in H. congruence. Qed.

Lemma extends_refl (h : Store.heap) : Store.extends h h.
Proof. exists []. now rewrite app_nil_r. Qed.

Lemma extends_trans (h1 h2 h3 : Store.heap) :
  Store.extends h1 h2 -> Store.extends h2 h3 -> Store.extends h1 h3.
Proof. intros [t ->] [t' ->]. exists (t ++ t'). now rewrite app_assoc. Qed.

Lemma extends_length (h h' : Store.heap) :
  Store.extends h h' -> List.length h <= List.length h'.
Proof. intros [t ->]. rewrite length_app. lia. Qed.

Lemma extends_alloc (h : Store.heap) (c : Store.cell) :
  Store.extends h (fst (Store.alloc h c)).
Proof. now exists [c]. Qed.

Lemma read_alloc (h : Store.heap) (c : Store.cell) :
  Store.read (h ++ [c]) (List.length h) = Some c.
Proof. unfold Store.read. rewrite nth_error_app2, Nat.sub_diag; auto. Qed.

Lemma write_extends (h hc : Store.heap) (s : Store.loc) (c : Store.cell) :
  Store.extends h hc -> List.length h <= s -> Store.extends h (Store.write hc s c).
Proof.
  intros [t ->] Hs. exists (replace_nth (s - List.length h) c t).
  unfold Store.write. revert s Hs. induction h as [|x h IH]; intros s Hs; cbn.
  - now rewrite Nat.sub_0_r.
  - destruct s as [|s]; [cbn in Hs; lia|]. cbn. f_equal. apply IH. cbn in Hs. lia.
Qed.

Lemma read_write_same (h : Store.heap) (s : Store.loc) (c c' : Store.cell) :
  Store.read h s = Some c' -> Store.read (Store.write h s c) s = Some c.
Proof. apply nth_error_replace_nth_same. Qed.

Lemma read_write_other (h : Store.heap) (s l : Store.loc) (c : Store.cell) :
  s <> l -> Store.read (Store.write h s c) l = Store.read h l.
Proof. apply nth_error_replace_nth_other. Qed.

Lemma write_length (h : Store.heap) (s : Store.loc) (c : Store.cell) :
  List.length (Store.write h s c) = List.length h.
Proof. apply replace_nth_length. Qed.

(** ** Snapshots held by a heap *)

Lemma repr_field_eq (h : Store.heap) (i : number) (k t : string) (c : list Field)
  (l : Store.loc) :
  Store.repr_field h (mkField i k t c) l <->
  exists a, Store.read h l = Some (Store.CField i k t a) /\ Store.repr_fields h c a.
Proof.
  cbn [Store.repr_field]. unfold Store.repr_fields.
  assert (E : forall (c : list Field) (elems : list Store.loc),
    (fix all (c : list Field) (elems : list Store.loc) {struct c} : Prop :=
       match c, elems with
       | [], [] => True
       | g :: c', e :: elems' => Store.repr_field h g e /\ all c' elems'
       | _, _ => False
       end) c elems <-> Forall2 (Store.repr_field h) c elems).
  { clear. induction c as [|g c IH]; intros [|e elems]; split; intros H.
    - constructor.
    - exact I.
    - destruct H.
    - inversion H.
    - destruct H.
    - inversion H.
    - destruct H as [H1 H2]. constructor; auto. now apply IH.
    - inversion H; subst. split; auto. now apply IH. }
  split.
  - intros (a & elems & H1 & H2 & H3). exists a. split; auto.
    exists elems. split; auto. now apply E.
  - intros (a & H1 & elems & H2 & H3). exists a, elems. repeat split; auto.
    now apply E.
Qed.

Lemma repr_field_extends (h h' : Store.heap) :
  Store.extends h h' ->
  forall f l, Store.repr_field h f l -> Store.repr_field h' f l.
Proof.
  intros Hext f. induction f as [i k t c IH] using Field_nested_ind.
  intros l. rewrite !repr_field_eq. intros (a & H1 & elems & H2 & H3).
  exists a. split; [now apply (read_extends h)|].
  exists elems. split; [now apply (read_extends h)|].
  clear H2. induction H3 as [|g e c' elems' Hg H3 IH3]; constructor.
  - inversion IH; subst. auto.
  - apply IH3. now inversion IH.
Qed.

Lemma Forall2_repr_field_extends (h h' : Store.heap)
  (l : list Field) (elems : list Store.loc) :
  Store.extends h h' ->
  Forall2 (Store.repr_field h) l elems -> Forall2 (Store.repr_field h') l elems.
Proof.
  intros Hext H. induction H; constructor; auto. now apply (repr_field_extends h).
Qed.

Lemma repr_fields_extends (h h' : Store.heap) (fields : list Field) (arr : Store.loc) :
  Store.extends h h' -> Store.repr_fields h fields arr -> Store.repr_fields h' fields arr.
Proof.
  intros Hext (elems & H1 & H2). exists elems. split; [now apply (read_extends h)|].
  clear H1. induction H2; constructor; [now apply (repr_field_extends h)|assumption].
Qed.

(** Every snapshot can be stored: evaluating it as a literal yields a heap
    that holds it. *)
Lemma literal_fold_repr (c : list Field) :
  Forall (fun g => forall h,
            Store.extends h (fst (Store.literal g h)) /\
            Store.repr_field (fst (Store.literal g h)) g (snd (Store.literal g h))) c ->
  forall h0 gs0 ls0,
    Forall2 (Store.repr_field h0) gs0 ls0 ->
    Store.extends h0
      (fst (fold_left (fun '(h', ls) g =>
                         let (h'', l) := Store.literal g h' in (h'', ls ++ [l]))
                      c (h0, ls0))) /\
    Forall2 (Store.repr_field
               (fst (fold_left (fun '(h', ls) g =>
                                  let (h'', l) := Store.literal g h' in (h'', ls ++ [l]))
                               c (h0, ls0))))
      (gs0 ++ c)
      (snd (fold_left (fun '(h', ls) g =>
                         let (h'', l) := Store.literal g h' in (h'', ls ++ [l]))
                      c (h0, ls0))).
Proof.
  induction 1 as [|g c Hg Hc IH]; intros h0 gs0 ls0 H0; cbn [fold_left].
  - rewrite app_nil_r. split; [apply extends_refl|exact H0].
  - destruct (Hg h0) as [He Hr]. destruct (Store.literal g h0) as [h1 l]. cbn [fst snd] in *.
    destruct (IH h1 (gs0 ++ [g]) (ls0 ++ [l])) as [He' HF].
    + apply Forall2_app; [|now repeat constructor].
      clear - H0 He. induction H0; constructor; auto.
      now apply (repr_field_extends h0).
    + split; [now apply (extends_trans h0 h1)|]. now rewrite <- app_assoc in HF.
Qed.

Lemma literal_repr (f : Field) :
  forall h,
    Store.extends h (fst (Store.literal f h)) /\
    Store.repr_field (fst (Store.literal f h)) f (snd (Store.literal f h)).
Proof.
  induction f as [i k t c IH] using Field_nested_ind. intros h.
  destruct (literal_fold_repr c IH h [] [] (Forall2_nil _)) as [He HF].
  cbn [Store.literal].
  destruct (fold_left _ c (h, [])) as [h1 elems]. cbn [fst snd app] in *.
  unfold Store.alloc. cbn [fst snd].
  assert (E1 : Store.extends h1 ((h1 ++ [Store.CArray elems]) ++
                 [Store.CField i k t (List.length h1)])).
  { exists [Store.CArray elems; Store.CField i k t (List.length h1)].
    now rewrite <- app_assoc. }
  split; [now apply (extends_trans h h1)|].
  apply repr_field_eq. exists (List.length h1). split; [apply read_alloc|].
  exists elems. split.
  - apply (read_extends (h1 ++ [Store.CArray elems])); [now eexists|apply read_alloc].
  - now apply (Forall2_repr_field_extends h1).
Qed.

Lemma literals_repr (fields : list Field) (h : Store.heap) :
  Store.extends h (fst (Store.literals fields h)) /\
  Store.repr_fields (fst (Store.literals fields h)) fields (snd (Store.literals fields h)).
Proof.
  assert (IH : Forall (fun g => forall h,
            Store.extends h (fst (Store.literal g h)) /\
            Store.repr_field (fst (Store.literal g h)) g (snd (Store.literal g h))) fields)
    by (apply Forall_forall; intros g _; apply literal_repr).
  destruct (literal_fold_repr fields IH h [] [] (Forall2_nil _)) as [He HF].
  unfold Store.literals.
  destruct (fold_left _ fields (h, [])) as [h1 elems]. cbn [fst snd app] in *.
  unfold Store.alloc. cbn [fst snd].
  split; [apply (extends_trans h h1); auto; now eexists|].
  exists elems. split; [apply read_alloc|].
  apply (Forall2_repr_field_extends h1); auto. now eexists.
Qed.

(** ** Values held by a heap *)

Lemma all_props_rel (R : JSON -> Store.value -> Prop) :
  forall (props : object JSON) (vprops : object Store.value),
    (fix all (props : object JSON) (vprops : object Store.value) {struct props} : Prop :=
       match props, vprops with
       | [], [] => True
       | (k, j') :: ps, (k', v') :: vs => k = k' /\ R j' v' /\ all ps vs
       | _, _ => False
       end) props vprops <-> Store.props_rel R props vprops.
Proof.
  unfold Store.props_rel.
  induction props as [|[k j] ps IH]; intros [|[k' v'] vs]; split; intros H.
  - constructor.
  - exact I.
  - destruct H.
  - inversion H.
  - destruct H.
  - inversion H.
  - destruct H as (H1 & H2 & H3). constructor; cbn; auto. now apply IH.
  - inversion H as [|? ? ? ? [H1 H2] H3]; subst. cbn in *. repeat split; auto. now apply IH.
Qed.

Lemma repr_above_object (h : Store.heap) (lo : Store.loc) (props : object JSON)
  (v : Store.value) :
  Store.repr_above h lo (JObject props) v <->
  exists l vprops,
    v = Store.VRef l /\ lo < l /\
    Store.read h l = Some (Store.CObject vprops) /\
    Store.props_rel (Store.repr_above h l) props vprops.
Proof.
  cbn [Store.repr_above]. split.
  - intros (l & vprops & H1 & H2 & H3 & H4). exists l, vprops. repeat split; auto.
    now apply (all_props_rel (Store.repr_above h l)).
  - intros (l & vprops & H1 & H2 & H3 & H4). exists l, vprops. repeat split; auto.
    now apply (all_props_rel (Store.repr_above h l)).
Qed.

Lemma repr_json_object (h : Store.heap) (props : object JSON) (v : Store.value) :
  Store.repr_json h (JObject props) v <->
  exists l vprops,
    v = Store.VRef l /\
    Store.read h l = Some (Store.CObject vprops) /\
    Store.props_rel (Store.repr_json h) props vprops.
Proof.
  cbn [Store.repr_json]. split.
  - intros (l & vprops & H1 & H3 & H4). exists l, vprops. repeat split; auto.
    now apply (all_props_rel (Store.repr_json h)).
  - intros (l & vprops & H1 & H3 & H4). exists l, vprops. repeat split; auto.
    now apply (all_props_rel (Store.repr_json h)).
Qed.

Lemma props_rel_impl (R R' : JSON -> Store.value -> Prop)
  (props : object JSON) (vprops : object Store.value) :
  Forall (fun p => forall v, R (snd p) v -> R' (snd p) v) props ->
  Store.props_rel R props vprops -> Store.props_rel R' props vprops.
Proof.
  unfold Store.props_rel. intros HF H. induction H as [|p q ps qs [H1 H2] H IH].
  - constructor.
  - inversion HF; subst. constructor; auto.
Qed.

(** A value stored above [lo] is held by every heap that agrees above [lo]. *)
Lemma repr_above_stable (j : JSON) :
  forall (h h' : Store.heap) (lo : Store.loc) (v : Store.value),
    (forall l c, lo < l -> Store.read h l = Some c -> Store.read h' l = Some c) ->
    Store.repr_above h lo j v -> Store.repr_above h' lo j v.
Proof.
  induction j as [s|n|props IH] using JSON_nested_ind; intros h h' lo v Hagree; auto.
  rewrite !repr_above_object. intros (l & vprops & H1 & H2 & H3 & H4).
  exists l, vprops. repeat split; auto.
  apply (props_rel_impl (Store.repr_above h l)); auto.
  apply Forall_forall. intros p Hp v'. rewrite Forall_forall in IH.
  apply (IH p Hp). intros l' c Hl'. apply Hagree. lia.
Qed.

Lemma repr_above_json (j : JSON) :
  forall (h : Store.heap) (lo : Store.loc) (v : Store.value),
    Store.repr_above h lo j v -> Store.repr_json h j v.
Proof.
  induction j as [s|n|props IH] using JSON_nested_ind; intros h lo v; auto.
  rewrite repr_above_object, repr_json_object.
  intros (l & vprops & H1 & H2 & H3 & H4). exists l, vprops. repeat split; auto.
  apply (props_rel_impl (Store.repr_above h l)); auto.
  apply Forall_forall. intros p Hp v'. rewrite Forall_forall in IH. apply (IH p Hp).
Qed.

Lemma props_rel_stable (h h' : Store.heap) (lo : Store.loc)
  (props : object JSON) (vprops : object Store.value) :
  (forall l c, lo < l -> Store.read h l = Some c -> Store.read h' l = Some c) ->
  Store.props_rel (Store.repr_above h lo) props vprops ->
  Store.props_rel (Store.repr_above h' lo) props vprops.
Proof.
  intros Hagree. apply props_rel_impl. apply Forall_forall.
  intros p _ v. now apply repr_above_stable.
Qed.

Lemma props_rel_js_set (R : JSON -> Store.value -> Prop)
  (acc : object JSON) (vacc : object Store.value) (k : string) (j : JSON) (v : Store.value) :
  Store.props_rel R acc vacc -> R j v ->
  Store.props_rel R (js_set acc k j) (js_set vacc k v).
Proof.
  unfold js_set, Store.props_rel. intros H Hjv. destruct (k =? "__proto__"); auto.
  induction H as [|[k1 j1] [k2 v2] ps qs [H1 H2] H IH]; cbn [replace_or_append].
  - constructor; auto.
  - cbn in H1, H2. subst k2. destruct (k1 =? k); constructor; auto.
Qed.

Lemma props_rel_keys (R : JSON -> Store.value -> Prop)
  (props : object JSON) (vprops : object Store.value) :
  Store.props_rel R props vprops -> keys props = keys vprops.
Proof.
  unfold Store.props_rel, keys. intros H.
  induction H as [|p q ps qs [H1 H2] H IH]; cbn; congruence.
Qed.

(** Proves [Store.repr_fields h fields arr] for a concrete heap by reading
    the cells. *)
Ltac holds_literal :=
  eexists; split; [reflexivity|];
  repeat (constructor;
          [do 2 eexists; repeat split;
           repeat (first [reflexivity | do 2 eexists; repeat split])|]);
  constructor.

(** ** generateSchema over the heap computes generateSchema of the snapshot *)

Lemma depth_fields_cons (f : Field) (fields : list Field) :
  Store.depth_fields (f :: fields) = Nat.max (Store.depth f) (Store.depth_fields fields).
Proof. reflexivity. Qed.

(** The loop of [generateSchema]: [h] is the heap at the call, the schema
    object sits at [length h], and [generate] is the recursive call. *)
Lemma forEach_visit_refines (n : nat) (h : Store.heap) :
  (forall fields hc arr,
     Store.repr_fields hc fields arr -> Store.depth_fields fields < n ->
     exists h' vprops,
       Store.generateSchema n arr hc = Some (h', List.length hc) /\
       Store.extends hc h' /\
       Store.read h' (List.length hc) = Some (Store.CObject vprops) /\
       Store.props_rel (Store.repr_above h' (List.length hc))
         (generateSchema fields) vprops) ->
  forall fields elems,
    Forall2 (Store.repr_field h) fields elems ->
    Store.depth_fields fields <= n ->
    forall hc acc vacc,
      Store.extends h hc ->
      Store.read hc (List.length h) = Some (Store.CObject vacc) ->
      Store.props_rel (Store.repr_above hc (List.length h)) acc vacc ->
      exists hc' vacc',
        Store.forEach (Store.visit (Store.generateSchema n) (List.length h)) elems hc
          = Some hc' /\
        Store.extends h hc' /\
        Store.read hc' (List.length h) = Some (Store.CObject vacc') /\
        Store.props_rel (Store.repr_above hc' (List.length h))
          (fold_left visit fields acc) vacc'.
Proof.
  intros IHn fields elems HF.
  induction HF as [|f e fields elems Hf HF IH]; intros Hd hc acc vacc Hext Hs Hacc.
  - exists hc, vacc. cbn. auto.
  - rewrite depth_fields_cons in Hd.
    destruct f as [i k t c]. apply repr_field_eq in Hf as (a & Hread & Hc).
    change (Store.depth (mkField i k t c)) with (S (Store.depth_fields c)) in Hd.
    assert (Hd' : Store.depth_fields fields <= n) by lia. specialize (IH Hd').
    cbn [Store.forEach fold_left visit]. unfold Store.visit.
    rewrite (read_extends h hc e _ Hext Hread).
    change (fold_left visit c []) with (generateSchema c).
    assert (Hwrite : forall vacc0 hw j v,
      Store.extends h hw ->
      Store.read hw (List.length h) = Some (Store.CObject vacc0) ->
      Store.props_rel (Store.repr_above hw (List.length h)) acc vacc0 ->
      Store.repr_above (Store.write hw (List.length h)
                          (Store.CObject (js_set vacc0 k v))) (List.length h) j v ->
      exists hc' vacc',
        match Store.assign hw (List.length h) k v with
        | Some h' =>
            Store.forEach (Store.visit (Store.generateSchema n) (List.length h)) elems h'
        | None => None
        end = Some hc' /\
        Store.extends h hc' /\
        Store.read hc' (List.length h) = Some (Store.CObject vacc') /\
        Store.props_rel (Store.repr_above hc' (List.length h))
          (fold_left visit fields (js_set acc k j)) vacc').
    { intros vacc0 hw j v Hext0 Hs0 Hacc0 Hjv. unfold Store.assign. rewrite Hs0.
      apply (IH _ _ (js_set vacc0 k v)).
      - apply write_extends; auto.
      - now apply (read_write_same hw _ _ (Store.CObject vacc0)).
      - apply props_rel_js_set; auto.
        apply (props_rel_stable hw); auto.
        intros l c' Hl Hr. rewrite read_write_other; auto. lia. }
    destruct (k =? ""); [now apply (IH hc acc vacc)|].
    destruct (t =? "string"); [apply (Hwrite vacc); auto; reflexivity|].
    destruct (t =? "number"); [apply (Hwrite vacc); auto; reflexivity|].
    destruct (t =? "nested"); [|now apply (IH hc acc vacc)].
    destruct (IHn c hc a) as (h' & vp & Hgen & Hext' & Hr & Hp);
      [now apply (repr_fields_extends h)|lia|].
    rewrite Hgen. pose proof (read_in_range _ _ _ Hs) as Hlt.
    apply (Hwrite vacc).
    + now apply (extends_trans h hc).
    + now apply (read_extends hc).
    + apply (props_rel_stable hc); auto.
      intros l c' Hl Hr'. now apply (read_extends hc).
    + apply repr_above_object. exists (List.length hc), vp. repeat split; auto.
      * rewrite read_write_other; auto. lia.
      * apply (props_rel_stable h'); auto.
        intros l c' Hl Hr'. rewrite read_write_other; auto. lia.
Qed.

(** On a heap that holds the snapshot [fields] at [arr], [generateSchema]
    with fuel above the nesting depth returns: it allocates the schema as a
    new object, leaves every cell of the heap as it was, and the object holds
    the projection of the snapshot. *)
Lemma generateSchema_refines (fuel : nat) :
  forall fields h arr,
    Store.repr_fields h fields arr ->
    Store.depth_fields fields < fuel ->
    exists h' vprops,
      Store.generateSchema fuel arr h = Some (h', List.length h) /\
      Store.extends h h' /\
      Store.read h' (List.length h) = Some (Store.CObject vprops) /\
      Store.props_rel (Store.repr_above h' (List.length h))
        (generateSchema fields) vprops.
Proof.
  induction fuel as [|n IHn]; intros fields h arr Hrepr Hd; [lia|].
  destruct Hrepr as (elems & Hread & HF).
  cbn [Store.generateSchema]. rewrite Hread. unfold Store.alloc.
  destruct (forEach_visit_refines n h IHn fields elems HF)
    with (hc := h ++ [Store.CObject []]) (acc := @nil (string * JSON))
         (vacc := @nil (string * Store.value))
    as (hc' & vacc' & Hloop & Hext & Hs & Hp).
  - fold (Store.depth_fields fields) in Hd. lia.
  - now exists [Store.CObject []].
  - apply read_alloc.
  - constructor.
  - rewrite Hloop. exists hc', vacc'. auto.
Qed.

Lemma generateSchema_returns (fuel : nat) (fields : list Field) (h : Store.heap)
  (arr : Store.loc) :
  Store.repr_fields h fields arr ->
  Store.depth_fields fields < fuel ->
  exists h' vprops,
    Store.generateSchema fuel arr h = Some (h', List.length h) /\
    Store.extends h h' /\
    Store.read h' (List.length h) = Some (Store.CObject vprops) /\
    keys vprops = keys (generateSchema fields) /\
    Store.repr_above h' (List.length h - 1)
      (JObject (generateSchema fields)) (Store.VRef (List.length h)).
Proof.
  intros Hrepr Hd.
  destruct (generateSchema_refines fuel fields h arr Hrepr Hd)
    as (h' & vprops & Hgen & Hext & Hr & Hp).
  exists h', vprops. repeat split; auto.
  - symmetry. now apply (props_rel_keys _ _ _ Hp).
  - apply repr_above_object. exists (List.length h), vprops. repeat split; auto.
    destruct Hrepr as (elems & Hread & _). apply read_in_range in Hread. lia.
Qed.

(** ** C7: fields of an unrecognized type *)

(** C7: a field whose type is none of ["string"], ["number"], ["nested"]
    emits nothing: dropping it from the sequence leaves the projection the
    same.  No error is raised: on every heap that holds the sequence,
    [generateSchema] returns an object, and that object holds the projection
    of the sequence without the field. *)
Theorem unrecognized_type_emits_nothing
  (pre post : list Field) (f : Field)
  (h : Store.heap) (arr : Store.loc) (fuel : nat) :
  type f <> "string" -> type f <> "number" -> type f <> "nested" ->
  Store.repr_fields h (pre ++ f :: post) arr ->
  Store.depth_fields (pre ++ f :: post) < fuel ->
  generateSchema (pre ++ f :: post) = generateSchema (pre ++ post) /\
  exists h' r,
    Store.generateSchema fuel arr h = Some (h', r) /\
    Store.repr_json h' (JObject (generateSchema (pre ++ post))) (Store.VRef r).
Proof.
  intros H1 H2 H3 Hrepr Hd.
  assert (E : generateSchema (pre ++ f :: post) = generateSchema (pre ++ post)).
  { apply generateSchema_skip. unfold emits, recognized.
    apply String.eqb_neq in H1, H2, H3. rewrite H1, H2, H3.
    now rewrite andb_false_r. }
  split; auto.
  destruct (generateSchema_returns fuel _ h arr Hrepr Hd)
    as (h' & vprops & Hgen & _ & _ & _ & Hj).
  exists h', (List.length h). split; auto.
  rewrite <- E. now apply (repr_above_json _ _ _ _ Hj).
Qed.

Lemma unrecognized_type_emits_nothing_witness :
  let fields :=
    [ mkField 1%float "a" "string" [];
      mkField 2%float "flag" "boolean" [];
      mkField 3%float "b" "number" [] ] in
  generateSchema fields =
    [("a", JString "String (default)"); ("b", JNumber 0%float)] /\
  exists h' r,
    Store.generateSchema 2 (snd (Store.literals fields [])) (fst (Store.literals fields []))
      = Some (h', r) /\
    Store.repr_json h'
      (JObject [("a", JString "String (default)"); ("b", JNumber 0%float)])
      (Store.VRef r).
Proof.
  cbv zeta.
  apply (unrecognized_type_emits_nothing
           [mkField 1%float "a" "string" []] [mkField 3%float "b" "number" []]
           (mkField 2%float "flag" "boolean" [])
           (fst (Store.literals
              [ mkField 1%float "a" "string" [];
                mkField 2%float "flag" "boolean" [];
                mkField 3%float "b" "number" [] ] []))
           (snd (Store.literals
              [ mkField 1%float "a" "string" [];
                mkField 2%float "flag" "boolean" [];
                mkField 3%float "b" "number" [] ] []))
           2); try discriminate.
  - holds_literal.
  - cbn. lia.
Defined.

(** ** C9: generateSchema is pure and deterministic *)

(** C9: on a heap that holds a snapshot, two calls of [generateSchema] in a
    row both return; neither changes a cell that existed before it was
    called, so the heap still holds the same snapshot; the two results are
    distinct new objects, both hold the projection of the snapshot, and so
    they are deeply equal, with the same keys in the same order. *)
Theorem generateSchema_pure_and_deterministic
  (h : Store.heap) (arr : Store.loc) (fields : list Field) (fuel : nat) :
  Store.repr_fields h fields arr ->
  Store.depth_fields fields < fuel ->
  exists h1 r1 h2 r2 props1 props2,
    Store.generateSchema fuel arr h = Some (h1, r1) /\
    Store.generateSchema fuel arr h1 = Some (h2, r2) /\
    Store.extends h h1 /\ Store.extends h1 h2 /\
    Store.repr_fields h2 fields arr /\
    List.length h <= r1 /\ List.length h1 <= r2 /\ r1 <> r2 /\
    Store.repr_json h2 (JObject (generateSchema fields)) (Store.VRef r1) /\
    Store.repr_json h2 (JObject (generateSchema fields)) (Store.VRef r2) /\
    Store.deep_equal h2 (Store.VRef r1) (Store.VRef r2) /\
    Store.read h2 r1 = Some (Store.CObject props1) /\
    Store.read h2 r2 = Some (Store.CObject props2) /\
    own_keys props1 = own_keys (generateSchema fields) /\
    own_keys props2 = own_keys (generateSchema fields).
Proof.
  intros Hrepr Hd.
  destruct (generateSchema_returns fuel fields h arr Hrepr Hd)
    as (h1 & p1 & Hgen1 & Hext1 & Hr1 & Hk1 & Hj1).
  pose proof (repr_fields_extends h h1 fields arr Hext1 Hrepr) as Hrepr1.
  destruct (generateSchema_returns fuel fields h1 arr Hrepr1 Hd)
    as (h2 & p2 & Hgen2 & Hext2 & Hr2 & Hk2 & Hj2).
  pose proof (read_in_range _ _ _ Hr1) as Hlt.
  assert (Hj1' : Store.repr_json h2 (JObject (generateSchema fields))
                   (Store.VRef (List.length h))).
  { apply (repr_above_json _ _ (List.length h - 1)).
    apply (repr_above_stable _ h1); auto.
    intros l c _ Hl. now apply (read_extends h1). }
  assert (Hj2' : Store.repr_json h2 (JObject (generateSchema fields))
                   (Store.VRef (List.length h1)))
    by now apply (repr_above_json _ _ _ _ Hj2).
  exists h1, (List.length h), h2, (List.length h1), p1, p2.
  repeat split; auto.
  - now apply (repr_fields_extends h1).
  - lia.
  - now exists (JObject (generateSchema fields)).
  - now apply (read_extends h1).
  - unfold own_keys. now rewrite Hk1.
  - unfold own_keys. now rewrite Hk2.
Qed.

Lemma generateSchema_pure_and_deterministic_witness :
  exists h1 r1 h2 r2,
    Store.generateSchema 4 (snd Store.initialFields) (fst Store.initialFields)
      = Some (h1, r1) /\
    Store.generateSchema 4 (snd Store.initialFields) h1 = Some (h2, r2) /\
    Store.extends (fst Store.initialFields) h2 /\
    Store.deep_equal h2 (Store.VRef r1) (Store.VRef r2).
Proof.
  destruct (generateSchema_pure_and_deterministic
              (fst Store.initialFields) (snd Store.initialFields) initialFields 4)
    as (h1 & r1 & h2 & r2 & p1 & p2 & H1 & H2 & E1 & E2 & _ & _ & _ & _ & _ & _ & HD & _).
  - holds_literal.
  - cbn. lia.
  - exists h1, r1, h2, r2. repeat split; auto. now apply (extends_trans _ h1).
Defined.

(** ** Updates over the heap rebuild the path and nothing else *)

Lemma id_of_extends (h h' : Store.heap) (l : Store.loc) (x : number) :
  Store.extends h h' -> Store.id_of h l = Some x -> Store.id_of h' l = Some x.
Proof.
  unfold Store.id_of. intros Hext H.
  destruct (Store.read h l) as [[i k t c| |]|] eqn:E; try discriminate.
  now rewrite (read_extends h h' l _ Hext E).
Qed.

Lemma array_map_no_match (h0 h : Store.heap) (u : Store.loc) (x : number)
  (elems : list Store.loc) (i : nat) :
  Store.extends h0 h -> Store.id_of h u = Some x ->
  forall k, Store.only_from h0 k elems i x = true -> i < k ->
  Store.array_map (Store.replace_if_same_id h u) elems = Some elems.
Proof.
  intros Hext Hu. induction elems as [|e es IH]; intros k H Hk;
    cbn [Store.only_from Store.array_map] in *; auto.
  destruct (Store.id_of h0 e) as [ei|] eqn:Ee; [|discriminate].
  apply andb_true_iff in H as [H0 H]. apply eqb_prop in H0.
  unfold Store.replace_if_same_id at 1.
  rewrite (id_of_extends h0 h e ei Hext Ee), Hu, H0.
  replace (k =? i)%nat with false by (symmetry; apply Nat.eqb_neq; lia).
  now rewrite (IH (S k)) by (auto; lia).
Qed.

(** [map] with the id test singles out index [d] when the ids say so. *)
Lemma array_map_only_from (h0 h : Store.heap) (u : Store.loc) (x : number)
  (elems : list Store.loc) (i : nat) :
  Store.extends h0 h -> Store.id_of h u = Some x ->
  forall k d, Store.only_from h0 k elems i x = true -> i = k + d ->
  d < List.length elems ->
  Store.array_map (Store.replace_if_same_id h u) elems = Some (replace_nth d u elems).
Proof.
  intros Hext Hu. induction elems as [|e es IH]; intros k d H Hi Hd;
    cbn [Store.only_from Store.array_map List.length] in *; [lia|].
  destruct (Store.id_of h0 e) as [ei|] eqn:Ee; [|discriminate].
  apply andb_true_iff in H as [H0 H]. apply eqb_prop in H0.
  unfold Store.replace_if_same_id at 1.
  rewrite (id_of_extends h0 h e ei Hext Ee), Hu, H0.
  destruct d as [|d].
  - replace (k =? i)%nat with true by (symmetry; apply Nat.eqb_eq; lia).
    now rewrite (array_map_no_match h0 h u x es i Hext Hu (S k)) by (auto; lia).
  - replace (k =? i)%nat with false by (symmetry; apply Nat.eqb_neq; lia).
    now rewrite (IH (S k) d) by (auto; lia).
Qed.

Lemma array_map_only_match (h0 h : Store.heap) (u : Store.loc) (x : number)
  (elems : list Store.loc) (i : nat) :
  Store.extends h0 h -> Store.id_of h u = Some x ->
  Store.only_match h0 elems i x = true -> i < List.length elems ->
  Store.array_map (Store.replace_if_same_id h u) elems = Some (replace_nth i u elems).
Proof.
  intros Hext Hu H Hi. now apply (array_map_only_from h0 h u x elems i Hext Hu 0 i).
Qed.

(** One level of rebuilding: a new array equal to the old one except for
    [u] at index [i]. *)
Lemma rebuilt_one (h0 h' : Store.heap) (arr arr' : Store.loc)
  (elems : list Store.loc) (i : nat) (u : Store.loc) :
  Store.read h0 arr = Some (Store.CArray elems) ->
  Store.read h' arr' = Some (Store.CArray (replace_nth i u elems)) ->
  List.length h0 <= arr' -> i < List.length elems ->
  Store.rebuilt h0 h' arr arr' [i] u.
Proof.
  intros H0 H' Hnew Hi. cbn [Store.rebuilt].
  exists elems, (replace_nth i u elems). repeat split; auto.
  - apply replace_nth_length.
  - intros j Hj. apply nth_error_replace_nth_other. congruence.
  - destruct (nth_error elems i) as [y|] eqn:E.
    + now apply (nth_error_replace_nth_same i u y).
    + apply nth_error_None in E. lia.
Qed.

Lemma loc_at_app (h : Store.heap) (P : list nat) :
  forall arr f fi k t c Q g,
    Store.loc_at h arr P = Some f ->
    Store.read h f = Some (Store.CField fi k t c) ->
    Store.loc_at h c Q = Some g ->
    Store.loc_at h arr (P ++ Q) = Some g.
Proof.
  induction P as [|i P IH]; intros arr f fi k t c Q g HP Hf HQ; [discriminate|].
  cbn [Store.loc_at app] in *.
  destruct (Store.read h arr) as [[| elems |]|]; try discriminate.
  destruct (nth_error elems i) as [f0|]; [|discriminate].
  destruct P as [|i2 P'].
  - inversion HP; subst f0. cbn [app]. destruct Q as [|q Q']; [discriminate|].
    now rewrite Hf.
  - cbn [app]. destruct (Store.read h f0) as [[fi0 k0 t0 c0| |]|]; try discriminate.
    now apply (IH c0 f fi k t c).
Qed.

(** Rebuilding along [P] around a new copy [f'] of the object [f] at [P],
    whose children are rebuilt along [Q] around [u], is rebuilding along
    [P ++ Q] around [u]. *)
Lemma rebuilt_app (h0 h' : Store.heap) (P : list nat) :
  forall arr arr' f f' fi k t c c' Q u,
    Store.rebuilt h0 h' arr arr' P f' ->
    Store.loc_at h0 arr P = Some f ->
    Store.read h0 f = Some (Store.CField fi k t c) ->
    Store.read h' f' = Some (Store.CField fi k t c') ->
    List.length h0 <= f' ->
    Q <> [] ->
    Store.rebuilt h0 h' c c' Q u ->
    Store.rebuilt h0 h' arr arr' (P ++ Q) u.
Proof.
  induction P as [|i P IH]; intros arr arr' f f' fi k t c c' Q u HR HP Hf Hf' Hnew HQ HRQ;
    [destruct HR|].
  cbn [Store.rebuilt Store.loc_at app] in *.
  destruct HR as (elems & elems' & H1 & H2 & H3 & H4 & H5 & H6 & H7).
  rewrite H1 in HP.
  destruct (nth_error elems i) as [f0|] eqn:Ef0; [|discriminate].
  exists elems, elems'. repeat split; auto.
  destruct P as [|i2 P'].
  - inversion HP; subst f0. cbn [app]. destruct Q as [|q Q']; [congruence|].
    exists f, f', fi, k, t, c, c'. repeat split; auto.
  - cbn [app]. destruct H7 as (g & g' & gi & gk & gt & gc & gc' & G1 & G2 & G3 & G4 & G5 & G6).
    assert (g = f0) by congruence. subst g. rewrite G4 in HP.
    exists f0, g', gi, gk, gt, gc, gc'. repeat split; auto.
    now apply (IH gc gc' f f' fi k t c c').
Qed.

(** [updateField] rebuilds the root array around [u] and allocates nothing
    but the new array. *)
Lemma updateField_rebuilds (h0 h : Store.heap) (fields : Store.loc)
  (elems : list Store.loc) (i : nat) (u : Store.loc) (x : number) :
  Store.read h0 fields = Some (Store.CArray elems) ->
  i < List.length elems ->
  Store.only_match h0 elems i x = true ->
  Store.extends h0 h -> Store.id_of h u = Some x ->
  exists h' r,
    Store.updateField fields u h = Some (h', r) /\
    Store.extends h h' /\
    List.length h' + 1 = List.length h + 2 * 1 /\
    Store.rebuilt h0 h' fields r [i] u.
Proof.
  intros Hread Hi Honly Hext Hu. unfold Store.updateField.
  rewrite (read_extends h0 h fields _ Hext Hread).
  rewrite (array_map_only_match h0 h u x elems i Hext Hu Honly Hi).
  unfold Store.alloc. do 2 eexists. split; [reflexivity|]. split; [|split].
  - now eexists.
  - rewrite length_app. cbn. lia.
  - apply (rebuilt_one h0 _ fields _ elems i u); auto.
    + apply read_alloc.
    + now apply extends_length.
Qed.

(** [handleChildUpdate] of a row rebuilds one more level below what the
    [onUpdate] of the row rebuilds, with one new array and one new object. *)
Lemma handleChildUpdate_rebuilds (h0 : Store.heap) (fields : Store.loc)
  (P : list nat) (f : Store.loc) (fi : number) (fk ft : string) (c : Store.loc)
  (celems : list Store.loc) (i' : nat) (onUpdate : Store.callback) :
  Store.loc_at h0 fields P = Some f ->
  Store.read h0 f = Some (Store.CField fi fk ft c) ->
  Store.read h0 c = Some (Store.CArray celems) ->
  i' < List.length celems ->
  (forall h u, Store.extends h0 h -> Store.id_of h u = Some fi ->
     exists h' r, onUpdate u h = Some (h', r) /\ Store.extends h h' /\
                  List.length h' + 1 = List.length h + 2 * List.length P /\
                  Store.rebuilt h0 h' fields r P u) ->
  forall h u x,
    Store.extends h0 h -> Store.id_of h u = Some x ->
    Store.only_match h0 celems i' x = true ->
    exists h' r,
      Store.handleChildUpdate f onUpdate u h = Some (h', r) /\
      Store.extends h h' /\
      List.length h' + 1 = List.length h + 2 * List.length (P ++ [i']) /\
      Store.rebuilt h0 h' fields r (P ++ [i']) u.
Proof.
  intros HP Hf Hc Hi' HK h u x Hext Hu Honly. unfold Store.handleChildUpdate.
  rewrite (read_extends h0 h f _ Hext Hf), (read_extends h0 h c _ Hext Hc).
  rewrite (array_map_only_match h0 h u x celems i' Hext Hu Honly Hi').
  unfold Store.alloc.
  set (h1 := h ++ [Store.CArray (replace_nth i' u celems)]).
  set (h2 := h1 ++ [Store.CField fi fk ft (List.length h)]).
  assert (Hext2 : Store.extends h h2).
  { exists [Store.CArray (replace_nth i' u celems); Store.CField fi fk ft (List.length h)].
    unfold h2, h1. now rewrite <- app_assoc. }
  assert (Hlen2 : List.length h2 = List.length h + 2).
  { unfold h2, h1. rewrite !length_app. cbn. lia. }
  destruct (HK h2 (List.length h1)) as (h' & r & Hcall & Hext' & Hlen' & HR).
  - now apply (extends_trans h0 h).
  - unfold Store.id_of, h2. now rewrite read_alloc.
  - exists h', r. split; auto. split; [now apply (extends_trans h h2)|].
    split; [rewrite length_app; cbn; lia|].
    pose proof (extends_length h0 h Hext) as Hlen.
    apply (rebuilt_app h0 h' P fields r f (List.length h1) fi fk ft c (List.length h));
      auto.
    + apply (read_extends h2); auto. unfold h2. apply read_alloc.
    + unfold h1. rewrite length_app. cbn. lia.
    + discriminate.
    + apply (rebuilt_one h0 h' c _ celems i' u); auto.
      apply (read_extends h1).
      * apply (extends_trans h1 h2); auto. now eexists.
      * unfold h1. apply read_alloc.
Qed.

(** The [onUpdate] of the row at [rest] below a row whose [onUpdate]
    rebuilds along [P] rebuilds along [P ++ rest]. *)
Lemma FieldRow_rebuilds (h0 : Store.heap) (fields : Store.loc) (rest : list nat) :
  forall (p q : Store.Props) (P : list nat) (fi : number) (fk ft : string)
         (c : Store.loc) (target : number),
    Store.FieldRow h0 p rest = Some q -> rest <> [] ->
    Store.loc_at h0 fields P = Some (Store.field p) ->
    Store.read h0 (Store.field p) = Some (Store.CField fi fk ft c) ->
    (forall h u, Store.extends h0 h -> Store.id_of h u = Some fi ->
       exists h' r, Store.onUpdate p u h = Some (h', r) /\ Store.extends h h' /\
                    List.length h' + 1 = List.length h + 2 * List.length P /\
                    Store.rebuilt h0 h' fields r P u) ->
    Store.addressable h0 c rest target = true ->
    forall h u, Store.extends h0 h -> Store.id_of h u = Some target ->
      exists h' r, Store.onUpdate q u h = Some (h', r) /\ Store.extends h h' /\
                   List.length h' + 1 = List.length h + 2 * List.length (P ++ rest) /\
                   Store.rebuilt h0 h' fields r (P ++ rest) u.
Proof.
  induction rest as [|i' rest' IH];
    intros p q P fi fk ft c target Hrow Hne HP Hf HK Hadr; [congruence|].
  cbn [Store.FieldRow] in Hrow. rewrite Hf in Hrow.
  destruct (ft =? "nested"); [|discriminate].
  cbn [Store.addressable] in Hadr.
  destruct (Store.read h0 c) as [[| celems |]|] eqn:Hc; try discriminate.
  destruct (nth_error celems i') as [child|] eqn:Hchild; [|discriminate].
  destruct (Store.id_of h0 child) as [childId|] eqn:Hcid; [|discriminate].
  pose proof (nth_error_in_range _ _ _ Hchild) as Hi'.
  pose proof (handleChildUpdate_rebuilds h0 fields P (Store.field p) fi fk ft c
                celems i' (Store.onUpdate p) HP Hf Hc Hi' HK) as Hstep.
  destruct rest' as [|i2 rest2].
  - cbn in Hrow. inversion Hrow; subst q. cbn [Store.onUpdate].
    intros h u Hext Hu. now apply (Hstep h u target).
  - destruct (Store.read h0 child) as [[ci ck ct cc| |]|] eqn:Hcell; try discriminate.
    apply andb_true_iff in Hadr as [Honly Hadr].
    intros h u Hext Hu.
    replace (P ++ i' :: i2 :: rest2) with ((P ++ [i']) ++ i2 :: rest2)
      by now rewrite <- app_assoc.
    apply (IH _ q (P ++ [i']) ci ck ct cc target Hrow); auto.
    + discriminate.
    + apply (loc_at_app h0 P fields (Store.field p) fi fk ft c [i'] child); auto.
      cbn. now rewrite Hc, Hchild.
    + cbn [Store.onUpdate]. intros h1 u1 Hext1 Hu1. now apply (Hstep h1 u1 ci).
Qed.

(** The [onUpdate] of the row that [SchemaBuilder] renders at [path]
    rebuilds along [path]. *)
Lemma SchemaBuilder_rebuilds (h0 : Store.heap) (fields : Store.loc) (path : list nat)
  (q : Store.Props) (target : number) :
  Store.SchemaBuilder h0 fields path = Some q ->
  Store.addressable h0 fields path target = true ->
  forall h u, Store.extends h0 h -> Store.id_of h u = Some target ->
    exists h' r, Store.onUpdate q u h = Some (h', r) /\ Store.extends h h' /\
                 List.length h' + 1 = List.length h + 2 * List.length path /\
                 Store.rebuilt h0 h' fields r path u.
Proof.
  destruct path as [|i rest]; cbn [Store.SchemaBuilder Store.addressable]; [discriminate|].
  destruct (Store.read h0 fields) as [[| elems |]|] eqn:Hfields; try discriminate.
  destruct (nth_error elems i) as [f|] eqn:Hf; [|discriminate].
  destruct (Store.id_of h0 f) as [fieldId|] eqn:Hid; [|discriminate].
  pose proof (nth_error_in_range _ _ _ Hf) as Hi.
  destruct rest as [|i2 rest2]; intros Hrow Hadr h u Hext Hu.
  - cbn in Hrow. inversion Hrow; subst q. cbn [Store.onUpdate].
    now apply (updateField_rebuilds h0 h fields elems i u target).
  - destruct (Store.read h0 f) as [[fi fk ft c| |]|] eqn:Hcell; try discriminate.
    apply andb_true_iff in Hadr as [Honly Hadr].
    apply (FieldRow_rebuilds h0 fields (i2 :: rest2) _ q [i] fi fk ft c target Hrow);
      auto.
    + discriminate.
    + cbn. now rewrite Hfields, Hf.
    + cbn [Store.onUpdate]. intros h1 u1 Hext1 Hu1.
      now apply (updateField_rebuilds h0 h1 fields elems i u1 fi).
Qed.

(** ** The heap and the snapshot it holds move together *)

Lemma Forall2_nth_error_l {A B} (R : A -> B -> Prop) (l1 : list A) (l2 : list B) :
  Forall2 R l1 l2 ->
  forall i x, nth_error l1 i = Some x -> exists y, nth_error l2 i = Some y /\ R x y.
Proof.
  induction 1 as [|a b l1 l2 Hab H IH]; intros [|i] x Hx; try discriminate.
  - inversion Hx; subst. now exists b.
  - now apply IH.
Qed.

Lemma Forall2_nth_error_r {A B} (R : A -> B -> Prop) (l1 : list A) (l2 : list B) :
  Forall2 R l1 l2 ->
  forall i y, nth_error l2 i = Some y -> exists x, nth_error l1 i = Some x /\ R x y.
Proof.
  induction 1 as [|a b l1 l2 Hab H IH]; intros [|i] y Hy; try discriminate.
  - inversion Hy; subst. now exists a.
  - now apply IH.
Qed.

Lemma Forall2_replace_nth {A B} (R : A -> B -> Prop) (l1 : list A) (l2 : list B)
  (i : nat) (x : A) (y : B) :
  Forall2 R l1 l2 -> R x y -> Forall2 R (replace_nth i x l1) (replace_nth i y l2).
Proof.
  intros H Hxy. revert i. induction H as [|a b l1 l2 Hab H IH]; intros [|i]; cbn;
    constructor; auto.
Qed.

Lemma repr_field_cell (h : Store.heap) (g : Field) (e : Store.loc) :
  Store.repr_field h g e ->
  exists c, Store.read h e = Some (Store.CField (id g) (keyName g) (type g) c) /\
            Store.repr_fields h (children g) c.
Proof. destruct g as [i k t c]. now rewrite repr_field_eq. Qed.

Lemma repr_field_id (h : Store.heap) (g : Field) (e : Store.loc) :
  Store.repr_field h g e -> Store.id_of h e = Some (id g).
Proof.
  intros H. destruct (repr_field_cell h g e H) as (c & Hc & _).
  unfold Store.id_of. now rewrite Hc.
Qed.

Lemma only_from_repr (h : Store.heap) (l : list Field) (elems : list Store.loc)
  (i : nat) (x : number) :
  Forall2 (Store.repr_field h) l elems ->
  forall k, Store.only_from h k elems i x = only_from k l i x.
Proof.
  induction 1 as [|g e l elems Hg H IH]; intros k; cbn [Store.only_from only_from]; auto.
  now rewrite (repr_field_id h g e Hg), IH.
Qed.

(** A path addressable in the snapshot is addressable in the heap. *)
Lemma addressable_repr (h : Store.heap) (x : number) (path : list nat) :
  forall fields arr,
    Store.repr_fields h fields arr ->
    addressable fields path x = true ->
    Store.addressable h arr path x = true.
Proof.
  induction path as [|i rest IH]; intros fields arr (elems & Hread & HF) Hadr;
    [discriminate|].
  cbn [addressable Store.addressable] in *. rewrite Hread.
  destruct (nth_error fields i) as [f|] eqn:Hf; [|discriminate].
  destruct (Forall2_nth_error_l _ _ _ HF i f Hf) as (e & He & Hfe). rewrite He.
  unfold Store.only_match, only_match in *.
  rewrite (only_from_repr h fields elems i _ HF).
  destruct rest as [|i2 rest2]; auto.
  destruct (repr_field_cell h f e Hfe) as (c & Hc & Hch). rewrite Hc.
  rewrite (only_from_repr h fields elems i _ HF).
  apply andb_true_iff in Hadr as [H1 H2]. rewrite H1. cbn [andb].
  now apply (IH (children f)).
Qed.

Lemma FieldRow_field_repr (h : Store.heap) (rest : list nat) :
  forall (p q : Store.Props) (F : Field),
    Store.FieldRow h p rest = Some q -> rest <> [] ->
    Store.repr_field h F (Store.field p) ->
    exists X, node_at (children F) rest = Some X /\
              Store.repr_field h X (Store.field q).
Proof.
  induction rest as [|i rest IH]; intros p q F Hrow Hne HF; [congruence|].
  destruct (repr_field_cell h F _ HF) as (c & Hc & elems & Hread & Hall).
  cbn [Store.FieldRow node_at] in *. rewrite Hc in Hrow.
  destruct (type F =? "nested"); [|discriminate].
  rewrite Hread in Hrow.
  destruct (nth_error elems i) as [child|] eqn:Hchild; [|discriminate].
  destruct (Forall2_nth_error_r _ _ _ Hall i child Hchild) as (g & Hg & Hgc).
  rewrite Hg.
  destruct (Store.id_of h child); [|discriminate].
  destruct rest as [|i2 rest2].
  - cbn in Hrow. inversion Hrow; subst q. now exists g.
  - apply (IH _ q g Hrow); auto. discriminate.
Qed.

(** The field object of a rendered row holds the node of the snapshot at
    the path of the row. *)
Lemma SchemaBuilder_field_repr (h : Store.heap) (fields : list Field)
  (arr : Store.loc) (path : list nat) (q : Store.Props) :
  Store.repr_fields h fields arr ->
  Store.SchemaBuilder h arr path = Some q ->
  exists X, node_at fields path = Some X /\ Store.repr_field h X (Store.field q).
Proof.
  intros (elems & Hread & Hall). destruct path as [|i rest]; [discriminate|].
  cbn [Store.SchemaBuilder node_at]. rewrite Hread.
  destruct (nth_error elems i) as [f|] eqn:Hf; [|discriminate].
  destruct (Forall2_nth_error_r _ _ _ Hall i f Hf) as (g & Hg & Hgf). rewrite Hg.
  destruct (Store.id_of h f); [|discriminate].
  destruct rest as [|i2 rest2]; intros Hrow.
  - cbn in Hrow. inversion Hrow; subst q. now exists g.
  - apply (FieldRow_field_repr h _ _ q g Hrow); auto. discriminate.
Qed.

Lemma replace_nth_of_pointwise {A} (l l' : list A) (i : nat) (y : A) :
  List.length l' = List.length l ->
  (forall j, j <> i -> nth_error l' j = nth_error l j) ->
  nth_error l' i = Some y ->
  l' = replace_nth i y l.
Proof.
  revert l' i. induction l as [|a l IH]; intros [|b l'] i Hlen Hoff Hi;
    try discriminate.
  - destruct i; discriminate.
  - destruct i as [|i]; cbn.
    + inversion Hi; subst. f_equal.
      apply nth_error_ext. intros j. apply (Hoff (S j)). discriminate.
    + f_equal.
      * specialize (Hoff 0). cbn in Hoff. assert (Some b = Some a) by (apply Hoff; discriminate).
        congruence.
      * apply IH; auto. intros j Hj. apply (Hoff (S j)). congruence.
Qed.

(** A heap rebuilt along [path] around an object that holds [ut] holds the
    snapshot with the node at [path] replaced by [ut]. *)
Lemma rebuilt_repr (path : list nat) :
  forall (h h' : Store.heap) (arr arr' u : Store.loc) (fields : list Field) (ut : Field),
    Store.extends h h' ->
    Store.repr_fields h fields arr ->
    Store.rebuilt h h' arr arr' path u ->
    Store.repr_field h' ut u ->
    Store.repr_fields h' (replace_at path ut fields) arr'.
Proof.
  induction path as [|i rest IH]; intros h h' arr arr' u fields ut Hext Hrepr HR Hu;
    [destruct HR|].
  cbn [Store.rebuilt replace_at] in *.
  destruct HR as (elems & elems' & H1 & H2 & H3 & H4 & H5 & H6 & H7).
  destruct Hrepr as (elems0 & Hread & Hall).
  assert (elems0 = elems) by congruence. subst elems0.
  assert (Hall' : Forall2 (Store.repr_field h') fields elems).
  { clear - Hall Hext. induction Hall; constructor; auto.
    now apply (repr_field_extends h). }
  exists elems'. split; auto.
  destruct rest as [|i2 rest2].
  - rewrite (replace_nth_of_pointwise elems elems' i u H4 H6 H7).
    now apply Forall2_replace_nth.
  - destruct H7 as (f & f' & fi & k & t & c & c' & G1 & G2 & G3 & G4 & G5 & G6).
    destruct (Forall2_nth_error_r _ _ _ Hall i f G1) as (g & Hg & Hgf). rewrite Hg.
    rewrite (replace_nth_of_pointwise elems elems' i f' H4 H6 G2).
    apply Forall2_replace_nth; auto.
    destruct (repr_field_cell h g f Hgf) as (c0 & Hc0 & Hch).
    assert (E : Store.CField (id g) (keyName g) (type g) c0 = Store.CField fi k t c)
      by congruence.
    inversion E; subst. unfold with_children. apply repr_field_eq.
    exists c'. split; auto.
    now apply (IH h h' c c' u (children g) ut).
Qed.

(** ** C5: an update at depth rebuilds the ancestors and shares the rest *)

(** C5, as stated, fails: [updateField] maps over the root array only.  On
    the initial tree A is [user] (object 11), X is [name] (object 1, a child
    of A) and B is [productId] (object 13).  Applied to a renamed copy of X,
    [updateField] returns a new root array with the very references of the
    old one: A is not rebuilt, and its child is still the old X. *)
Lemma updateField_rebuilds_no_ancestor :
  let h := fst Store.initialFields in
  let arr := snd Store.initialFields in
  let X' := Store.CField 2%float "Y" "string" 0 in
  Store.loc_at h arr [0; 0] = Some 1 /\
  Store.read h 1 = Some (Store.CField 2%float "name" "string" 0) /\
  Store.read h arr = Some (Store.CArray [11; 13]) /\
  Store.updateField arr (snd (Store.alloc h X')) (fst (Store.alloc h X')) =
    Some (h ++ [X'; Store.CArray [11; 13]], 16) /\
  Store.loc_at (h ++ [X'; Store.CArray [11; 13]]) 16 [0] = Some 11 /\
  Store.loc_at (h ++ [X'; Store.CArray [11; 13]]) 16 [0; 0] = Some 1.
Proof. cbv zeta. repeat split; vm_compute; reflexivity. Qed.

(** C5 (amended): the change of a nested node does not go to [updateField]
    directly.  Let the heap hold a tree whose ids are pairwise different, and
    let a row be rendered at [path] for the node [X].  Changing the name or
    type of [X] calls [handleUpdate] of the row, which reaches [updateField]
    through the [handleChildUpdate] of every ancestor.  The call returns a
    new root array that holds the tree with [X] changed in place.  No cell
    that existed before is changed, so every old node is still the same
    object with the same content; at every level of the path the new array
    holds the very references of the old one except at the index on the
    path, where it holds a new object: a copy of the ancestor around its
    rebuilt children or, at the end, the changed field [u], which shares the
    children of [X].  Two cells are allocated per level and no more. *)
Theorem handleUpdate_rebuilds_only_the_path
  (h : Store.heap) (arr : Store.loc) (fields : list Field) (path : list nat)
  (q : Store.Props) (change : Change) :
  Store.repr_fields h fields arr ->
  all_distinct (ids fields) = true ->
  Store.SchemaBuilder h arr path = Some q ->
  exists h' arr' u X,
    Store.handleUpdate (Store.field q) (Store.onUpdate q) change h = Some (h', arr') /\
    Store.extends h h' /\
    (forall l cell, Store.read h l = Some cell -> Store.read h' l = Some cell) /\
    List.length h' = List.length h + 2 * List.length path /\
    node_at fields path = Some X /\
    Store.repr_field h X (Store.field q) /\
    List.length h <= u /\
    Store.repr_field h' (with_change X change) u /\
    Store.rebuilt h h' arr arr' path u /\
    Store.repr_fields h' (replace_at path (with_change X change) fields) arr'.
Proof.
  intros Hrepr Hd Hrow.
  destruct (SchemaBuilder_field_repr h fields arr path q Hrepr Hrow) as (X & HX & HXq).
  destruct (repr_field_cell h X _ HXq) as (c & Hcell & Hch).
  pose proof (addressable_repr h (id X) path fields arr Hrepr
                (addressable_of_distinct path fields X Hd HX)) as Hadr.
  unfold Store.handleUpdate. rewrite Hcell. unfold Store.alloc.
  set (cell := match change with
               | ChangeKeyName k' => Store.CField (id X) k' (type X) c
               | ChangeType t' => Store.CField (id X) (keyName X) t' c
               end).
  assert (Hext1 : Store.extends h (h ++ [cell])) by now exists [cell].
  destruct (SchemaBuilder_rebuilds h arr path q (id X) Hrow Hadr
              (h ++ [cell]) (List.length h))
    as (h' & r & Hcall & Hext & Hlen & HR); auto.
  - unfold Store.id_of. rewrite read_alloc. unfold cell. now destruct change.
  - assert (Hext' : Store.extends h h') by now apply (extends_trans h (h ++ [cell])).
    assert (Hu : Store.repr_field h' (with_change X change) (List.length h)).
    { assert (Hr : Store.read h' (List.length h) = Some cell)
        by (apply (read_extends (h ++ [cell])); auto; apply read_alloc).
      pose proof (repr_fields_extends h h' _ _ Hext' Hch) as Hch'.
      unfold cell in Hr. destruct change; cbn [with_change]; apply repr_field_eq;
        exists c; auto. }
    exists h', r, (List.length h), X. repeat split; auto.
    + intros l c0. now apply read_extends.
    + rewrite length_app in Hlen. cbn in Hlen. lia.
    + now apply (rebuilt_repr path h h' arr r (List.length h)).
Qed.

Lemma handleUpdate_rebuilds_only_the_path_witness :
  exists q h' arr' u,
    Store.SchemaBuilder (fst Store.initialFields) (snd Store.initialFields) [0; 0]
      = Some q /\
    Store.handleUpdate (Store.field q) (Store.onUpdate q) (ChangeKeyName "Y")
      (fst Store.initialFields) = Some (h', arr') /\
    Store.extends (fst Store.initialFields) h' /\
    Store.rebuilt (fst Store.initialFields) h' (snd Store.initialFields) arr' [0; 0] u /\
    Store.repr_fields h'
      [ mkField 1%float "user" "nested"
          [ mkField 2%float "Y" "string" [];
            mkField 3%float "age" "number" [];
            mkField 4%float "address" "nested"
              [ mkField 5%float "street" "string" [];
                mkField 6%float "zip" "number" [] ] ];
        mkField 7%float "productId" "string" [] ] arr'.
Proof.
  destruct (Store.SchemaBuilder (fst Store.initialFields) (snd Store.initialFields) [0; 0])
    as [q|] eqn:Hq; [|vm_compute in Hq; discriminate Hq].
  destruct (handleUpdate_rebuilds_only_the_path
              (fst Store.initialFields) (snd Store.initialFields) initialFields
              [0; 0] q (ChangeKeyName "Y"))
    as (h' & arr' & u & X & H1 & H2 & _ & _ & HX & _ & _ & _ & H3 & H4).
  - holds_literal.
  - reflexivity.
  - exact Hq.
  - exists q, h', arr', u. repeat split; auto.
    cbn in HX. inversion HX; subst X. exact H4.
Defined.

(** The scenario of the claim on the initial tree: A is [user] (object 11),
    X is [name] (object 1), B is [productId] (object 13).  Renaming X leaves
    the fifteen old cells in place and adds X renamed, the new children of A,
    the new A and the new root array, in which B is still object 13. *)
Example rename_name_in_initialFields :
  forall q,
    Store.SchemaBuilder (fst Store.initialFields) (snd Store.initialFields) [0; 0]
      = Some q ->
    Store.handleUpdate (Store.field q) (Store.onUpdate q) (ChangeKeyName "Y")
      (fst Store.initialFields) =
    Some (fst Store.initialFields ++
            [ Store.CField 2%float "Y" "string" 0;
              Store.CArray [15; 3; 9];
              Store.CField 1%float "user" "nested" 16;
              Store.CArray [17; 13] ],
          18).
Proof. intros q H. vm_compute in H. inversion H. reflexivity. Qed.

(** Why the ids have to be pairwise different: the handlers find a node by
    its id among its siblings.  When two siblings have the same id, which
    two calls of [createDefaultField] can produce, renaming the first
    through its row puts the one new object in both places of the new array
    of children. *)
Example equal_sibling_ids_are_changed_together :
  let twins :=
    [ mkField 1%float "a" "nested"
        [ mkField 2%float "x" "string" []; mkField 2%float "y" "number" [] ] ] in
  let h := fst (Store.literals twins []) in
  let arr := snd (Store.literals twins []) in
  forall q,
    Store.SchemaBuilder h arr [0; 0] = Some q ->
    Store.handleUpdate (Store.field q) (Store.onUpdate q) (ChangeKeyName "z") h =
    Some (h ++ [ Store.CField 2%float "z" "string" 0;
                 Store.CArray [7; 7];
                 Store.CField 1%float "a" "nested" 8;
                 Store.CArray [9] ],
          10).
Proof. cbv zeta. intros q H. vm_compute in H. inversion H. reflexivity. Qed.

(** ** C4: createDefaultField *)

(** C4, as stated, fails: two calls in the same millisecond whose random
    draws differ by less than the spacing of doubles near the clock reading
    return the same id, so the second id is the id of a node of the tree. *)
Lemma createDefaultField_id_collides :
  let now := 1700000000000%float in
  let fields := addField initialFields now 0.5%float in
  let f := createDefaultField now 0.50000095367431640625%float in
  (0.5%float === 0.50000095367431640625%float) = false /\
  existsb (fun g => id g === id f) fields = true.
Proof. cbv zeta. split; reflexivity. Qed.

(** C4 (amended): every call returns a new object with type ["string"],
    an empty name and a new empty array of children; its id is the sum of
    the clock reading and the random draw of that call, and the tree is not
    consulted.  The reference of the object is new although its id may not
    be.  The handlers copy the id of the field they rebuild, so an id is
    never reassigned. *)
Theorem createDefaultField_defaults (now random : number) :
  type (createDefaultField now random) = "string" /\
  keyName (createDefaultField now random) = "" /\
  children (createDefaultField now random) = [] /\
  id (createDefaultField now random) = (now + random)%float /\
  (forall fields, addField fields now random = fields ++ [createDefaultField now random]) /\
  (forall f c, id (with_children f c) = id f) /\
  (forall f change, id (with_change f change) = id f) /\
  (forall h,
     Store.extends h (fst (Store.createDefaultField now random h)) /\
     List.length h <= snd (Store.createDefaultField now random h) /\
     Store.repr_field (fst (Store.createDefaultField now random h))
       (createDefaultField now random)
       (snd (Store.createDefaultField now random h))).
Proof.
  repeat split.
  - intros f []; reflexivity.
  - exists [Store.CArray []; Store.CField (now + random)%float "" "string" (List.length h)].
    cbn. now rewrite <- app_assoc.
  - cbn. rewrite length_app. cbn. lia.
  - cbn. exists (List.length h), []. repeat split.
    + apply (read_alloc (h ++ [Store.CArray []])).
    + apply (read_extends (h ++ [Store.CArray []])); [now eexists|apply read_alloc].
Qed.


(** * More facts about the snapshot model *)

(** ** Adding a field *)

(** X1: adding a root field does not change the projection: the new field
    has no name yet. *)
Theorem addField_keeps_projection (fields : list Field) (now random : number) :
  generateSchema (addField fields now random) = generateSchema fields /\
  List.length (addField fields now random) = S (List.length fields) /\
  (forall j, j < List.length fields ->
     nth_error (addField fields now random) j = nth_error fields j).
Proof.
  unfold addField. repeat split.
  - rewrite (generateSchema_skip fields [] (createDefaultField now random) eq_refl).
    now rewrite app_nil_r.
  - rewrite length_app. cbn. lia.
  - intros j Hj. now apply nth_error_app1.
Qed.

(** ** The projection is compositional *)

Lemma visit_congr (u x : Field) :
  keyName u = keyName x -> type u = type x ->
  generateSchema (children u) = generateSchema (children x) ->
  forall schema, visit schema u = visit schema x.
Proof.
  intros Hk Ht Hc schema. rewrite !visit_eq. unfold value_of.
  now rewrite Hk, Ht, Hc.
Qed.

Lemma generateSchema_replace_nth (fields : list Field) (i : nat) (u x : Field) :
  nth_error fields i = Some x ->
  (forall schema, visit schema u = visit schema x) ->
  generateSchema (replace_nth i u fields) = generateSchema fields.
Proof.
  intros Hx Hv. rewrite (replace_nth_split fields i x u Hx).
  rewrite (nth_error_split_at fields i x Hx) at 3.
  rewrite !generateSchema_app. cbn [fold_left]. now rewrite Hv.
Qed.

(** Replacing a node by one with the same name, type and projection of
    children leaves the projection of the whole forest the same. *)
Lemma generateSchema_replace_at (path : list nat) (u x : Field) :
  forall fields,
    node_at fields path = Some x ->
    (forall schema, visit schema u = visit schema x) ->
    generateSchema (replace_at path u fields) = generateSchema fields.
Proof.
  induction path as [|i rest IH]; intros fields Hx Hv; [discriminate|].
  cbn [node_at replace_at] in *.
  destruct (nth_error fields i) as [f|] eqn:Hf; [|discriminate].
  destruct rest as [|i2 rest2].
  - inversion Hx; subst f. now apply (generateSchema_replace_nth fields i u x).
  - apply (generateSchema_replace_nth fields i _ f Hf).
    apply visit_congr; try reflexivity. cbn [children with_children].
    now apply IH.
Qed.

(** ** Replacing twice, replacing by the same *)

Lemma replace_nth_same {A} (l : list A) (i : nat) (x : A) :
  nth_error l i = Some x -> replace_nth i x l = l.
Proof.
  revert i; induction l as [|y l IH]; intros [|i]; cbn; intros H; try discriminate.
  - now inversion H.
  - f_equal. now apply IH.
Qed.

Lemma replace_nth_twice {A} (l : list A) (i : nat) (x y : A) :
  replace_nth i y (replace_nth i x l) = replace_nth i y l.
Proof.
  revert i; induction l as [|z l IH]; intros [|i]; cbn; auto. f_equal. apply IH.
Qed.

Lemma with_children_same (f : Field) : with_children f (children f) = f.
Proof. now destruct f. Qed.

Lemma replace_at_same (path : list nat) (x : Field) :
  forall fields, node_at fields path = Some x -> replace_at path x fields = fields.
Proof.
  induction path as [|i rest IH]; intros fields Hx; [discriminate|].
  cbn [node_at replace_at] in *.
  destruct (nth_error fields i) as [f|] eqn:Hf; [|discriminate].
  destruct rest as [|i2 rest2].
  - inversion Hx; subst f. now apply replace_nth_same.
  - rewrite (IH (children f) Hx), with_children_same. now apply replace_nth_same.
Qed.

Lemma replace_at_twice (path : list nat) (u v : Field) :
  forall fields,
    replace_at path v (replace_at path u fields) = replace_at path v fields.
Proof.
  induction path as [|i rest IH]; intros fields; [reflexivity|].
  cbn [replace_at]. destruct rest as [|i2 rest2].
  - apply replace_nth_twice.
  - destruct (nth_error fields i) as [f|] eqn:Hf.
    + rewrite (nth_error_replace_nth_same i _ f fields Hf).
      cbn [children with_children id keyName type].
      rewrite IH. unfold with_children. cbn [id keyName type].
      apply replace_nth_twice.
    + now rewrite Hf.
Qed.

Lemma ids_replace_nth (fields : list Field) (i : nat) (u x : Field) :
  nth_error fields i = Some x ->
  id u = id x -> ids (children u) = ids (children x) ->
  ids (replace_nth i u fields) = ids fields.
Proof.
  intros Hx Hi Hc. rewrite (replace_nth_split fields i x u Hx).
  rewrite (nth_error_split_at fields i x Hx) at 3.
  rewrite !ids_app, !ids_cons. now rewrite Hi, Hc.
Qed.

(** Replacing a node by one with the same id and the same ids below it
    keeps the ids of the forest, in document order. *)
Lemma ids_replace_at (path : list nat) (u x : Field) :
  forall fields,
    node_at fields path = Some x ->
    id u = id x -> ids (children u) = ids (children x) ->
    ids (replace_at path u fields) = ids fields.
Proof.
  induction path as [|i rest IH]; intros fields Hx Hi Hc; [discriminate|].
  cbn [node_at replace_at] in *.
  destruct (nth_error fields i) as [f|] eqn:Hf; [|discriminate].
  destruct rest as [|i2 rest2].
  - inversion Hx; subst f. now apply (ids_replace_nth fields i u x).
  - apply (ids_replace_nth fields i _ f Hf); [reflexivity|].
    cbn [children with_children]. now apply IH.
Qed.

Lemma node_at_app (p : list nat) :
  forall fields a d,
    node_at fields p = Some a -> d <> [] ->
    node_at fields (p ++ d) = node_at (children a) d.
Proof.
  induction p as [|i p IH]; intros fields a d Ha Hd; [discriminate|].
  cbn [app node_at] in *.
  destruct (nth_error fields i) as [f|]; [|discriminate].
  destruct p as [|i2 p2].
  - inversion Ha; subst f. cbn [app]. destruct d; [congruence|reflexivity].
  - cbn [app]. cbn [app] in IH. now apply IH.
Qed.

Lemma node_at_app_none (p : list nat) :
  forall fields d, node_at fields p = None -> p <> [] -> node_at fields (p ++ d) = None.
Proof.
  induction p as [|i p IH]; intros fields d Hp Hne; [congruence|].
  cbn [app node_at] in *.
  destruct (nth_error fields i) as [f|]; [|reflexivity].
  destruct p as [|i2 p2]; [discriminate|].
  cbn [app]. cbn [app] in IH. destruct d.
  - rewrite app_nil_r. exact Hp.
  - apply IH; [exact Hp|discriminate].
Qed.

(** ** Which rows are rendered *)

Lemma FieldRow_rendered (rest : list nat) :
  forall p : Props,
    rest <> [] ->
    ((exists q, FieldRow p rest = Some q) <->
     type (field p) = "nested" /\
     (exists X, node_at (children (field p)) rest = Some X) /\
     (forall a d b, a <> [] -> d <> [] -> rest = a ++ d ->
        node_at (children (field p)) a = Some b -> type b = "nested")).
Proof.
  induction rest as [|i rest IH]; intros p Hne; [congruence|].
  cbn [FieldRow node_at].
  destruct (String.eqb_spec (type (field p)) "nested") as [Ht|Ht];
    [|split; [intros [q Hq]; discriminate|intros [H _]; contradiction]].
  destruct (nth_error (children (field p)) i) as [c|] eqn:Hc;
    [|split; [intros [q Hq]; discriminate|intros (_ & [X HX] & _); discriminate]].
  destruct rest as [|i2 rest2].
  - split.
    + intros _. repeat split; eauto.
      intros [|a0 a] [|d0 d] b Ha Hd E; try congruence.
      inversion E. destruct a; discriminate.
    + intros _. cbn. eauto.
  - rewrite (IH _ ltac:(discriminate)). cbn [field]. split.
    + intros (Hct & HX & Hanc). repeat split; auto.
      intros [|a0 a] d b Ha Hd E Hb; [congruence|].
      inversion E; subst a0. cbn [node_at] in Hb. rewrite Hc in Hb.
      destruct a as [|a1 a2]; [now inversion Hb; subst|].
      apply (Hanc (a1 :: a2) d b); auto. discriminate.
    + intros (_ & HX & Hanc). repeat split; auto.
      * apply (Hanc [i] (i2 :: rest2) c); try discriminate; auto.
        cbn. now rewrite Hc.
      * intros a d b Ha Hd E Hb. apply (Hanc (i :: a) d b); [discriminate|assumption| |].
        -- cbn. now rewrite E.
        -- cbn [node_at]. rewrite Hc. destruct a; [congruence|exact Hb].
Qed.

(** Which paths have a row. *)
Lemma SchemaBuilder_rows (fields : list Field) (path : list nat) :
  (exists q, SchemaBuilder fields path = Some q) <->
  (exists X, node_at fields path = Some X) /\
  (forall a d b, a <> [] -> d <> [] -> path = a ++ d ->
     node_at fields a = Some b -> type b = "nested").
Proof.
  destruct path as [|i rest]; cbn [SchemaBuilder node_at].
  - split; [intros [q Hq]; discriminate|intros ([X HX] & _); discriminate].
  - destruct (nth_error fields i) as [f|] eqn:Hf;
      [|split; [intros [q Hq]; discriminate|intros ([X HX] & _); discriminate]].
    destruct rest as [|i2 rest2].
    + split.
      * intros _. split; eauto.
        intros [|a0 a] [|d0 d] b Ha Hd E; try congruence.
        inversion E. destruct a; discriminate.
      * intros _. cbn. eauto.
    + rewrite (FieldRow_rendered (i2 :: rest2) _ ltac:(discriminate)). cbn [field]. split.
      * intros (Hct & HX & Hanc). split; auto.
        intros [|a0 a] d b Ha Hd E Hb; [congruence|].
        inversion E; subst a0. cbn [node_at] in Hb. rewrite Hf in Hb.
        destruct a as [|a1 a2]; [now inversion Hb; subst|].
        apply (Hanc (a1 :: a2) d b); auto. discriminate.
      * intros (HX & Hanc). repeat split; auto.
        -- apply (Hanc [i] (i2 :: rest2) f); try discriminate; auto.
           cbn. now rewrite Hf.
        -- intros a d b Ha Hd E Hb. apply (Hanc (i :: a) d b); [discriminate|assumption| |].
           ++ cbn. now rewrite E.
           ++ cbn [node_at]. rewrite Hf. destruct a; [congruence|exact Hb].
Qed.

(** X2: [SchemaBuilder] renders a row for a path exactly when the path
    leads to a node and every node above it on the path has type
    ["nested"]: the children of a field of another type have no row, so
    they can be neither edited nor removed. *)
Theorem SchemaBuilder_rendered (fields : list Field) (path : list nat) :
  (exists q, SchemaBuilder fields path = Some q) <->
  (exists X, node_at fields path = Some X) /\
  (forall a d b, a <> [] -> d <> [] -> path = a ++ d ->
     node_at fields a = Some b -> type b = "nested").
Proof. apply SchemaBuilder_rows. Qed.

(** The row at [path] is still rendered after the node there is replaced,
    whatever the new node is. *)
Lemma SchemaBuilder_replace_at (fields : list Field) (path : list nat)
  (q : Props) (u : Field) :
  SchemaBuilder fields path = Some q ->
  exists q', SchemaBuilder (replace_at path u fields) path = Some q' /\ field q' = u.
Proof.
  intros Hrow.
  pose proof (SchemaBuilder_field fields path q Hrow) as Hq.
  assert (Hex : exists q', SchemaBuilder (replace_at path u fields) path = Some q').
  { apply SchemaBuilder_rows.
    destruct (proj1 (SchemaBuilder_rows fields path) (ex_intro _ q Hrow))
      as [_ Hanc].
    split.
    - exists u. now apply (node_at_replace_at_same path u fields (field q)).
    - intros a d b Ha Hd E Hb. subst path.
      destruct (node_at fields a) as [b0|] eqn:Hb0.
      + destruct (node_at_replace_at_ancestor a u d fields b0 Ha Hd Hb0) as [c Hc].
        rewrite Hc in Hb. inversion Hb; subst b. cbn [type with_children].
        now apply (Hanc a d b0).
      + exfalso. destruct a as [|a0 a]; [congruence|].
        rewrite (node_at_app_none (a0 :: a) fields d Hb0 Ha) in Hq. discriminate. }
  destruct Hex as [q' Hq']. exists q'. split; auto.
  pose proof (SchemaBuilder_field _ path q' Hq') as Hf.
  rewrite (node_at_replace_at_same path u fields (field q) Hq) in Hf. congruence.
Qed.

(** ** Renaming and retyping a field *)

Lemma handleUpdate_step
  (fields : list Field) (path : list nat) (q : Props) (change : Change) :
  SchemaBuilder fields path = Some q ->
  all_distinct (ids fields) = true ->
  handleUpdate (field q) (onUpdate q) change =
    replace_at path (with_change (field q) change) fields /\
  ids (handleUpdate (field q) (onUpdate q) change) = ids fields.
Proof.
  intros Hrow Hd.
  pose proof (SchemaBuilder_field fields path q Hrow) as Hq.
  assert (Hid : id (with_change (field q) change) = id (field q))
    by now destruct change.
  assert (Hch : children (with_change (field q) change) = children (field q))
    by now destruct change.
  assert (E : handleUpdate (field q) (onUpdate q) change =
              replace_at path (with_change (field q) change) fields).
  { unfold handleUpdate. apply SchemaBuilder_onUpdate; auto.
    rewrite Hid. now apply addressable_of_distinct. }
  split; auto. rewrite E.
  apply (ids_replace_at path _ (field q)); auto. now rewrite Hch.
Qed.

(** X3: renaming or retyping the field of a rendered row, in a tree whose
    ids are pairwise different, changes that node and nothing else: the
    state becomes the forest with the node replaced by the changed field,
    which keeps its id and its children; every id of the tree stays in
    place, so the ids are still pairwise different. *)
Theorem handleUpdate_changes_one_field
  (fields : list Field) (path : list nat) (q : Props) (change : Change) :
  SchemaBuilder fields path = Some q ->
  all_distinct (ids fields) = true ->
  handleUpdate (field q) (onUpdate q) change =
    replace_at path (with_change (field q) change) fields /\
  node_at (handleUpdate (field q) (onUpdate q) change) path =
    Some (with_change (field q) change) /\
  children (with_change (field q) change) = children (field q) /\
  ids (handleUpdate (field q) (onUpdate q) change) = ids fields /\
  all_distinct (ids (handleUpdate (field q) (onUpdate q) change)) = true.
Proof.
  intros Hrow Hd.
  pose proof (SchemaBuilder_field fields path q Hrow) as Hq.
  destruct (handleUpdate_step fields path q change Hrow Hd) as (E & Hids).
  repeat split; auto.
  - rewrite E. now apply (node_at_replace_at_same path _ fields (field q)).
  - now destruct change.
  - now rewrite Hids.
Qed.

Lemma handleUpdate_changes_one_field_witness :
  exists q,
    SchemaBuilder initialFields [0; 1] = Some q /\
    handleUpdate (field q) (onUpdate q) (ChangeKeyName "years") =
    [ mkField 1%float "user" "nested"
        [ mkField 2%float "name" "string" [];
          mkField 3%float "years" "number" [];
          mkField 4%float "address" "nested"
            [ mkField 5%float "street" "string" [];
              mkField 6%float "zip" "number" [] ] ];
      mkField 7%float "productId" "string" [] ].
Proof.
  eexists. split; [reflexivity|].
  exact (proj1 (handleUpdate_changes_one_field initialFields [0; 1] _
                  (ChangeKeyName "years") eq_refl eq_refl)).
Defined.

(** X4: a change of name or type can be undone.  After the change the
    row is still rendered at the same path, with the children the field had
    (a field retyped away from ["nested"] keeps its children), and changing
    the name or type back to the old one restores the tree exactly. *)
Theorem handleUpdate_round_trip
  (fields : list Field) (path : list nat) (q : Props) (change : Change) :
  SchemaBuilder fields path = Some q ->
  all_distinct (ids fields) = true ->
  exists q',
    SchemaBuilder (handleUpdate (field q) (onUpdate q) change) path = Some q' /\
    field q' = with_change (field q) change /\
    children (field q') = children (field q) /\
    handleUpdate (field q') (onUpdate q')
      (match change with
       | ChangeKeyName _ => ChangeKeyName (keyName (field q))
       | ChangeType _ => ChangeType (type (field q))
       end) = fields.
Proof.
  intros Hrow Hd.
  pose proof (SchemaBuilder_field fields path q Hrow) as Hq.
  destruct (handleUpdate_step fields path q change Hrow Hd) as (E & Hids).
  destruct (SchemaBuilder_replace_at fields path q (with_change (field q) change) Hrow)
    as (q' & Hrow' & Hf').
  rewrite <- E in Hrow'.
  exists q'. repeat split; auto.
  - rewrite Hf'. now destruct change.
  - assert (Hd' : all_distinct (ids (handleUpdate (field q) (onUpdate q) change)) = true)
      by now rewrite Hids.
    set (back := match change with
                 | ChangeKeyName _ => ChangeKeyName (keyName (field q))
                 | ChangeType _ => ChangeType (type (field q))
                 end).
    destruct (handleUpdate_step _ path q' back Hrow' Hd') as (E' & _).
    rewrite E', E, Hf', replace_at_twice. unfold back.
    replace (with_change (with_change (field q) change) _) with (field q)
      by (destruct (field q), change; reflexivity).
    now apply replace_at_same.
Qed.

Lemma handleUpdate_round_trip_witness :
  exists q q',
    SchemaBuilder initialFields [0; 2] = Some q /\
    SchemaBuilder (handleUpdate (field q) (onUpdate q) (ChangeType "string")) [0; 2]
      = Some q' /\
    type (field q') = "string" /\
    children (field q') =
      [ mkField 5%float "street" "string" []; mkField 6%float "zip" "number" [] ] /\
    handleUpdate (field q') (onUpdate q') (ChangeType "nested") = initialFields.
Proof.
  destruct (SchemaBuilder initialFields [0; 2]) as [q|] eqn:Hq;
    [|vm_compute in Hq; discriminate Hq].
  destruct (handleUpdate_round_trip initialFields [0; 2] q (ChangeType "string")
              Hq eq_refl) as (q' & H1 & H2 & H3 & H4).
  exists q, q'. vm_compute in Hq. inversion Hq; subst q. cbn [field] in *.
  repeat split; auto.
  - now rewrite H2.
Defined.

(** ** Adding a child *)

Lemma addChildField_step
  (fields : list Field) (path : list nat) (q : Props) (now random : number) :
  SchemaBuilder fields path = Some q ->
  all_distinct (ids fields) = true ->
  addChildField (field q) (onUpdate q) now random =
    replace_at path
      (with_children (field q)
         (children (field q) ++ [createDefaultField now random])) fields.
Proof.
  intros Hrow Hd. unfold addChildField. apply SchemaBuilder_onUpdate; auto.
  cbn [id with_children]. apply addressable_of_distinct; auto.
  now apply SchemaBuilder_field.
Qed.

(** X5: adding a child to the field of a rendered row, in a tree whose ids
    are pairwise different, appends a default field as the last child of
    that node and changes nothing else; the projection stays the same, the
    new child having no name yet. *)
Theorem addChildField_appends_last_child
  (fields : list Field) (path : list nat) (q : Props) (now random : number) :
  SchemaBuilder fields path = Some q ->
  all_distinct (ids fields) = true ->
  addChildField (field q) (onUpdate q) now random =
    replace_at path
      (with_children (field q)
         (children (field q) ++ [createDefaultField now random])) fields /\
  node_at (addChildField (field q) (onUpdate q) now random)
    (path ++ [List.length (children (field q))]) = Some (createDefaultField now random) /\
  (forall j, j < List.length (children (field q)) ->
     node_at (addChildField (field q) (onUpdate q) now random) (path ++ [j]) =
     node_at fields (path ++ [j])) /\
  generateSchema (addChildField (field q) (onUpdate q) now random) =
    generateSchema fields.
Proof.
  intros Hrow Hd.
  pose proof (SchemaBuilder_field fields path q Hrow) as Hq.
  set (u := with_children (field q)
              (children (field q) ++ [createDefaultField now random])).
  assert (E : addChildField (field q) (onUpdate q) now random = replace_at path u fields).
  { unfold addChildField. apply SchemaBuilder_onUpdate; auto.
    change (id u) with (id (field q)). now apply addressable_of_distinct. }
  pose proof (node_at_replace_at_same path u fields (field q) Hq) as Hu.
  rewrite E. repeat split; auto.
  - rewrite (node_at_app path _ u [_] Hu) by discriminate.
    cbn [node_at children u with_children].
    now rewrite nth_error_app2, Nat.sub_diag by lia.
  - intros j Hj.
    rewrite (node_at_app path _ u [j] Hu), (node_at_app path _ (field q) [j] Hq)
      by discriminate.
    cbn [node_at children u with_children]. now rewrite nth_error_app1.
  - apply (generateSchema_replace_at path u (field q)); auto.
    apply visit_congr; try reflexivity. cbn [children u with_children].
    rewrite (generateSchema_skip (children (field q)) []
               (createDefaultField now random) eq_refl).
    now rewrite app_nil_r.
Qed.

Lemma addChildField_appends_last_child_witness :
  exists q,
    SchemaBuilder initialFields [0; 2] = Some q /\
    node_at (addChildField (field q) (onUpdate q) 1700000000000%float 0.5%float)
      [0; 2; 2] = Some (createDefaultField 1700000000000%float 0.5%float) /\
    generateSchema (addChildField (field q) (onUpdate q) 1700000000000%float 0.5%float)
      = generateSchema initialFields.
Proof.
  destruct (SchemaBuilder initialFields [0; 2]) as [q|] eqn:Hq;
    [|vm_compute in Hq; discriminate Hq].
  destruct (addChildField_appends_last_child initialFields [0; 2] q
              1700000000000%float 0.5%float Hq eq_refl) as (_ & H2 & _ & H4).
  exists q. repeat split; auto.
  vm_compute in Hq. inversion Hq; subst q. exact H2.
Defined.

(** ** Removing a field *)

Lemma all_distinct_app_intro (xs ys : list number) :
  all_distinct xs = true -> all_distinct ys = true ->
  (forall x y, In x xs -> In y ys -> (x === y) = false /\ (y === x) = false) ->
  all_distinct (xs ++ ys) = true.
Proof.
  induction xs as [|a xs IH]; cbn [app all_distinct]; intros Hx Hy Hxy; auto.
  apply andb_true_iff in Hx as [Hx Hx3]. apply andb_true_iff in Hx as [Hx1 Hx2].
  rewrite Hx1, forallb_app, Hx2. cbn [andb].
  rewrite IH; auto; [|intros x y Hin; apply Hxy; now right].
  rewrite andb_true_r. apply forallb_forall. intros y Hin.
  destruct (Hxy a y (or_introl eq_refl) Hin) as [E1 E2]. now rewrite E1, E2.
Qed.

Lemma onRemove_ids
  (fields : list Field) (path : list nat) (q : Props) :
  SchemaBuilder fields path = Some q ->
  all_distinct (ids fields) = true ->
  all_distinct (ids (onRemove q)) = true /\
  (forall x y, In x (ids [field q]) -> In y (ids (onRemove q)) -> (x === y) = false) /\
  (forall y, In y (ids (onRemove q)) -> In y (ids fields)).
Proof.
  intros Hrow Hd.
  pose proof (SchemaBuilder_field fields path q Hrow) as Hq.
  pose proof (addressable_of_distinct path fields (field q) Hd Hq) as Hadr.
  rewrite (SchemaBuilder_onRemove fields path q Hrow Hadr).
  destruct (labels_remove_at path fields (field q) Hq) as (pre & post & E1 & E2).
  unfold ids in *. rewrite E2. rewrite E1 in Hd |- *.
  rewrite !map_app in *.
  unfold labels. cbn [flat_map]. rewrite app_nil_r.
  set (f := fun l : number * string * string => fst (fst l)) in *.
  apply all_distinct_app in Hd as (Hpre & Hd & Hpre').
  apply all_distinct_app in Hd as (Hx & Hpost & Hpost').
  repeat split.
  - apply all_distinct_app_intro; auto.
    intros x y Hin Hin'. apply Hpre'; auto. apply in_or_app. now right.
  - intros x y Hin Hin'. apply in_app_or in Hin' as [Hin'|Hin'].
    + apply (Hpre' y x); auto. apply in_or_app. now left.
    + now apply (Hpost' x y).
  - intros y Hin. apply in_app_or in Hin as [Hin|Hin]; apply in_or_app; auto.
    right. apply in_or_app. now right.
Qed.


(** X6: removing the field of a rendered row, in a tree whose ids are
    pairwise different, leaves a tree whose ids are pairwise different and
    of which no id [===] an id of the removed subtree: the rows that remain
    can still be told apart. *)
Theorem onRemove_keeps_ids_distinct
  (fields : list Field) (path : list nat) (q : Props) :
  SchemaBuilder fields path = Some q ->
  all_distinct (ids fields) = true ->
  all_distinct (ids (onRemove q)) = true /\
  (forall x y, In x (ids [field q]) -> In y (ids (onRemove q)) -> (x === y) = false) /\
  (forall y, In y (ids (onRemove q)) -> In y (ids fields)).
Proof. apply onRemove_ids. Qed.

Lemma onRemove_keeps_ids_distinct_witness :
  exists q,
    SchemaBuilder initialFields [0; 2] = Some q /\
    all_distinct (ids (onRemove q)) = true.
Proof.
  eexists. split; [reflexivity|].
  exact (proj1 (onRemove_keeps_ids_distinct initialFields [0; 2] _ eq_refl eq_refl)).
Defined.

Lemma In_remove_nth {A} (l : list A) (i : nat) (x : A) :
  In x (remove_nth i l) <-> exists j, j <> i /\ nth_error l j = Some x.
Proof.
  revert i. induction l as [|y l IH]; intros i.
  - cbn. split; [intros []|intros (j & _ & H)]. destruct j; discriminate.
  - destruct i as [|i]; cbn [remove_nth].
    + split.
      * intros H. apply In_nth_error in H as [j Hj]. exists (S j). split; auto.
      * intros ([|j] & Hne & Hj); [congruence|]. now apply (nth_error_In _ j).
    + cbn [In]. rewrite IH. split.
      * intros [<-|(j & Hne & Hj)]; [exists 0; split; auto|].
        exists (S j). split; auto.
      * intros ([|j] & Hne & Hj); [left; now inversion Hj|].
        right. exists j. split; auto.
Qed.

(** X7: removing a root field takes its key out of the projection when no
    other root field emits under the same name, and leaves every other key
    of the projection in place. *)
Theorem removed_root_field_leaves_projection
  (fields : list Field) (i : nat) (q : Props) :
  SchemaBuilder fields [i] = Some q ->
  all_distinct (ids fields) = true ->
  (forall j g, nth_error fields j = Some g -> j <> i -> emits g = true ->
     keyName g <> keyName (field q)) ->
  ~ In (keyName (field q)) (own_keys (generateSchema (onRemove q))) /\
  (forall k, k <> keyName (field q) ->
     (In k (own_keys (generateSchema (onRemove q))) <->
      In k (own_keys (generateSchema fields)))).
Proof.
  intros Hrow Hd Hother.
  pose proof (SchemaBuilder_field fields [i] q Hrow) as Hq.
  pose proof (addressable_of_distinct [i] fields (field q) Hd Hq) as Hadr.
  rewrite (SchemaBuilder_onRemove fields [i] q Hrow Hadr).
  cbn [remove_at node_at] in *.
  destruct (nth_error fields i) as [f|] eqn:Hf; [|discriminate].
  inversion Hq; subst f. split.
  - rewrite In_own_keys_generateSchema, In_emitted.
    intros (g & Hin & He & Hk). apply In_remove_nth in Hin as (j & Hne & Hj).
    now apply (Hother j g).
  - intros k Hk. rewrite !In_own_keys_generateSchema, !In_emitted. split.
    + intros (g & Hin & He & Hg). exists g. repeat split; auto.
      apply In_remove_nth in Hin as (j & _ & Hj). now apply (nth_error_In _ j).
    + intros (g & Hin & He & Hg). exists g. repeat split; auto.
      apply In_remove_nth. apply In_nth_error in Hin as [j Hj]. exists j. split; auto.
      intros ->. rewrite Hf in Hj. inversion Hj; subst g. congruence.
Qed.

Lemma removed_root_field_leaves_projection_witness :
  exists q,
    SchemaBuilder initialFields [0] = Some q /\
    ~ In "user" (own_keys (generateSchema (onRemove q))) /\
    In "productId" (own_keys (generateSchema (onRemove q))).
Proof.
  destruct (SchemaBuilder initialFields [0]) as [q|] eqn:Hq;
    [|vm_compute in Hq; discriminate Hq].
  destruct (removed_root_field_leaves_projection initialFields 0 q Hq eq_refl)
    as [H1 H2].
  - intros j g Hj Hne _. vm_compute in Hq. inversion Hq; subst q. cbn [field keyName].
    destruct j as [|[|j]]; [congruence| |destruct j; discriminate].
    cbn in Hj. inversion Hj; subst g. cbn. discriminate.
  - exists q. vm_compute in Hq. inversion Hq; subst q. cbn [field keyName] in *.
    repeat split; auto.
    apply H2; [discriminate|]. vm_compute. auto.
Defined.

(** ** What a named field emits *)

(** X8: a field of a recognized type whose name is neither empty nor
    [__proto__] binds its name in the projection, wherever it stands among
    the fields: the key occurs exactly once.  When no later field emits
    under the same name, its value is the placeholder string for
    ["string"], zero for ["number"] and the projection of the children for
    ["nested"]. *)
Theorem named_field_is_emitted (pre post : list Field) (f : Field) :
  keyName f <> "" -> keyName f <> "__proto__" -> recognized (type f) = true ->
  count_occ string_dec (own_keys (generateSchema (pre ++ f :: post))) (keyName f) = 1 /\
  ((forall g, In g post -> emits g = true -> keyName g <> keyName f) ->
   get (generateSchema (pre ++ f :: post)) (keyName f) =
     Some (if type f =? "string" then JString "String (default)"
           else if type f =? "number" then JNumber 0%float
           else JObject (generateSchema (children f)))).
Proof.
  intros H1 H2 H3.
  assert (He : emits f = true).
  { unfold emits. apply String.eqb_neq in H1, H2. now rewrite H1, H2, H3. }
  split.
  - apply NoDup_count_occ'; [apply NoDup_own_keys_generateSchema|].
    apply In_own_keys_generateSchema, In_emitted. exists f. repeat split; auto.
    apply in_or_app. right. now left.
  - intros Hpost.
    destruct (emitting_field_binds_its_name pre post f He Hpost) as [Hget _].
    exact Hget.
Qed.

Lemma named_field_is_emitted_witness :
  count_occ string_dec
    (own_keys (generateSchema
       ([mkField 1%float "a" "string" []] ++
        mkField 2%float "a" "nested" [mkField 3%float "x" "number" []] ::
        [mkField 4%float "b" "number" []; mkField 5%float "a" "number" []])))
    "a" = 1 /\
  get (generateSchema
         ([mkField 1%float "a" "string" []] ++
          mkField 2%float "a" "nested" [mkField 3%float "x" "number" []] ::
          [mkField 4%float "b" "number" []])) "a" =
  Some (JObject [("x", JNumber 0%float)]).
Proof.
  split.
  - refine (proj1 (named_field_is_emitted
              [mkField 1%float "a" "string" []]
              [mkField 4%float "b" "number" []; mkField 5%float "a" "number" []]
              (mkField 2%float "a" "nested" [mkField 3%float "x" "number" []])
              _ _ eq_refl)); discriminate.
  - refine (proj2 (named_field_is_emitted
              [mkField 1%float "a" "string" []] [mkField 4%float "b" "number" []]
              (mkField 2%float "a" "nested" [mkField 3%float "x" "number" []])
              _ _ eq_refl) _); try discriminate.
    intros g [<-|[]] _. discriminate.
Defined.

(** ** Key order in general *)

Lemma insert_index_sorted (n : N) (k : string) (l : list (N * string)) :
  StronglySorted (fun a b => (fst a <= fst b)%N) l ->
  StronglySorted (fun a b => (fst a <= fst b)%N) (insert_index n k l).
Proof.
  induction 1 as [|[m k'] l Hl IH Hm]; cbn [insert_index].
  - repeat constructor.
  - destruct (N.ltb_spec n m) as [Hlt|Hge].
    + constructor; [now constructor|]. constructor; [cbn; lia|].
      rewrite Forall_forall in *. intros x Hx. specialize (Hm x Hx). cbn in *. lia.
    + constructor; auto.
      apply (Permutation_Forall (Permutation_sym (insert_index_perm n k l))).
      constructor; auto.
Qed.

Lemma index_keys_sorted (ks : list string) :
  StronglySorted (fun a b => (fst a <= fst b)%N) (index_keys ks).
Proof.
  induction ks as [|k ks IH]; cbn [index_keys]; [constructor|].
  destruct (array_index k); auto. now apply insert_index_sorted.
Qed.

Lemma index_keys_In (ks : list string) (n : N) (k : string) :
  In (n, k) (index_keys ks) -> array_index k = Some n /\ In k ks.
Proof.
  induction ks as [|k0 ks IH]; cbn [index_keys]; [intros []|].
  destruct (array_index k0) as [n0|] eqn:E.
  - intros H. apply (Permutation_in _ (insert_index_perm n0 k0 _)) in H.
    destruct H as [H|H]; [inversion H; subst; split; auto; now left|].
    destruct (IH H). split; auto. now right.
  - intros H. destruct (IH H). split; auto. now right.
Qed.

(** X9: whatever the fields are, the keys of the projected object are
    enumerated in two runs.  First come the emitted names that are array
    indices, in ascending numeric order; then the other emitted names, each
    once, in the order of the first field that emits it. *)
Theorem own_keys_array_indices_first (fields : list Field) :
  exists indices,
    own_keys (generateSchema fields) =
      map snd indices ++
      filter (fun k => negb (is_array_index k)) (first_occurrences [] (emitted fields)) /\
    StronglySorted (fun a b => (fst a <= fst b)%N) indices /\
    (forall n k, In (n, k) indices ->
       array_index k = Some n /\ In k (emitted fields)) /\
    (forall k, In k (emitted fields) -> is_array_index k = true ->
       In k (map snd indices)).
Proof.
  exists (index_keys (first_occurrences [] (emitted fields))).
  rewrite own_keys_generateSchema.
  split; [reflexivity|]. split; [apply index_keys_sorted|]. split.
  - intros n k H. apply index_keys_In in H. destruct H as [H1 H2]. split; auto.
    now apply first_occurrences_In in H2.
  - intros k Hin Hidx.
    apply (Permutation_in _ (Permutation_sym (index_keys_perm _))).
    apply filter_In. split; auto. apply first_occurrences_In. auto.
Qed.

(** ** What the projection does not depend on *)

Lemma fold_left_visit_ext (c c' : list Field) :
  Forall2 (fun g g' => forall schema, visit schema g' = visit schema g) c c' ->
  forall schema, fold_left visit c' schema = fold_left visit c schema.
Proof.
  induction 1 as [|g g' c c' Hg H IH]; intros schema; cbn [fold_left]; auto.
  now rewrite Hg, IH.
Qed.

Lemma visit_projected_part (f : Field) :
  forall schema, visit schema (projected_part f) = visit schema f.
Proof.
  induction f as [i k t c IH] using Field_nested_ind. intros schema.
  cbn [projected_part visit].
  destruct (k =? ""); auto.
  destruct (t =? "string"); auto.
  destruct (t =? "number"); auto.
  destruct (t =? "nested"); auto.
  do 2 f_equal. apply fold_left_visit_ext.
  clear - IH. induction IH; cbn [map]; constructor; auto.
Qed.

(** X10: the projection depends on no id and on no child of a field whose
    type is not ["nested"]: erasing all ids and dropping those children
    everywhere in the tree leaves the projection the same.  Children kept by
    a field that was retyped away from ["nested"] are therefore never
    shown. *)
Theorem generateSchema_ignores_ids_and_dormant_children (fields : list Field) :
  generateSchema (map projected_part fields) = generateSchema fields.
Proof.
  unfold generateSchema. apply fold_left_visit_ext.
  induction fields as [|f fields IH]; cbn [map]; constructor; auto.
  apply visit_projected_part.
Qed.

(** ** Unique ids are kept along every run *)

Lemma all_distinct_insert (a b : list number) (x : number) :
  all_distinct (a ++ b) = true ->
  (x === x) = true ->
  (forall y, In y (a ++ b) -> (x === y) = false /\ (y === x) = false) ->
  all_distinct (a ++ x :: b) = true.
Proof.
  intros Hab Hx Hfresh.
  apply all_distinct_app in Hab as (Ha & Hb & Hcross).
  apply all_distinct_app_intro; auto.
  - cbn [all_distinct]. rewrite Hx, Hb. cbn [andb]. rewrite andb_true_r.
    apply forallb_forall. intros y Hy.
    destruct (Hfresh y) as [E1 E2]; [apply in_or_app; now right|].
    now rewrite E1, E2.
  - intros y z Hy [<-|Hz]; [|now apply Hcross].
    destruct (Hfresh y) as [E1 E2]; [apply in_or_app; now left|]. auto.
Qed.

Lemma ids_replace_at_split (path : list nat) (u : Field) :
  forall fields x,
    node_at fields path = Some x ->
    exists pre post,
      ids fields = pre ++ ids [x] ++ post /\
      ids (replace_at path u fields) = pre ++ ids [u] ++ post.
Proof.
  induction path as [|i rest IH]; intros fields x Hx; [discriminate|].
  cbn [node_at replace_at] in *.
  destruct (nth_error fields i) as [f|] eqn:Hf; [|discriminate].
  destruct rest as [|i2 rest2].
  - inversion Hx; subst f.
    exists (ids (firstn i fields)), (ids (skipn (S i) fields)). split.
    + rewrite (nth_error_split_at fields i x Hf) at 1.
      rewrite ids_app, (ids_cons x (skipn _ _)), (ids_cons x []).
      cbn [ids labels flat_map map]. now rewrite app_nil_r.
    + rewrite (replace_nth_split fields i x u Hf).
      rewrite ids_app, (ids_cons u (skipn _ _)), (ids_cons u []).
      cbn [ids labels flat_map map]. now rewrite app_nil_r.
  - destruct (IH (children f) x Hx) as (pre & post & E1 & E2).
    exists (ids (firstn i fields) ++ id f :: pre),
           (post ++ ids (skipn (S i) fields)). split.
    + rewrite (nth_error_split_at fields i f Hf) at 1.
      rewrite ids_app, ids_cons, E1.
      rewrite <- ?app_assoc; cbn [app]; rewrite <- ?app_assoc; reflexivity.
    + rewrite (replace_nth_split fields i f _ Hf).
      rewrite ids_app, ids_cons. cbn [id children with_children]. rewrite E2.
      rewrite <- ?app_assoc; cbn [app]; rewrite <- ?app_assoc; reflexivity.
Qed.

Lemma ids_singleton (g : Field) : ids [g] = id g :: ids (children g).
Proof. rewrite ids_cons. unfold ids at 2. cbn. now rewrite app_nil_r. Qed.

Lemma ids_snoc_default (c : list Field) (now random : number) :
  ids (c ++ [createDefaultField now random]) = ids c ++ [(now + random)%float].
Proof. now rewrite ids_app, ids_singleton. Qed.

Lemma dispatch_keeps_ids_distinct (fields fields' : list Field) (e : Event) :
  all_distinct (ids fields) = true ->
  match e with
  | ClickAddField now random | ClickAddNestedField _ now random =>
      fresh_id fields (now + random)%float
  | _ => True
  end ->
  dispatch fields e = Some fields' ->
  all_distinct (ids fields') = true.
Proof.
  intros Hd Hfresh Hstep. destruct e as [now random|path change|path|path now random];
    cbn [dispatch] in Hstep.
  - inversion Hstep; subst fields'. unfold addField. rewrite ids_snoc_default.
    destruct Hfresh as [Hx Hy].
    rewrite <- (app_nil_r (ids fields)) in Hd, Hy.
    now apply all_distinct_insert.
  - destruct (SchemaBuilder fields path) as [q|] eqn:Hrow; [|discriminate].
    inversion Hstep; subst fields'.
    destruct (handleUpdate_step fields path q change Hrow Hd) as [_ E].
    now rewrite E.
  - destruct (SchemaBuilder fields path) as [q|] eqn:Hrow; [|discriminate].
    inversion Hstep; subst fields'.
    now apply (onRemove_ids fields path q Hrow Hd).
  - destruct (SchemaBuilder fields path) as [q|] eqn:Hrow; [|discriminate].
    destruct (type (field q) =? "nested"); [|discriminate].
    inversion Hstep; subst fields'.
    rewrite (addChildField_step fields path q now random Hrow Hd).
    pose proof (SchemaBuilder_field fields path q Hrow) as Hq.
    destruct (ids_replace_at_split path
                (with_children (field q)
                   (children (field q) ++ [createDefaultField now random]))
                fields (field q) Hq) as (pre & post & E1 & E2).
    rewrite E2. rewrite ids_singleton in E1 |- *.
    cbn [id children with_children]. rewrite ids_snoc_default.
    destruct Hfresh as [Hx Hy]. rewrite E1 in Hd, Hy.
    replace (pre ++ (id (field q) :: ids (children (field q)) ++ [(now + random)%float])
                 ++ post)
      with ((pre ++ id (field q) :: ids (children (field q)))
              ++ (now + random)%float :: post)
      by (rewrite <- ?app_assoc; cbn [app]; rewrite <- ?app_assoc; reflexivity).
    apply all_distinct_insert; auto.
    + rewrite <- app_assoc. exact Hd.
    + intros y Hin. apply Hy. rewrite <- app_assoc in Hin. exact Hin.
Qed.

(** X11: unique ids are an invariant of the component, given fresh ids.
    From a tree whose ids are pairwise different, every run of events in
    which each created id is fresh at the time it is created (it equals
    itself and no id of the tree) ends in a tree whose ids are pairwise
    different, so that every node of it is addressable by its id. *)
Theorem run_keeps_ids_distinct (events : list Event) :
  forall fields fields',
    all_distinct (ids fields) = true ->
    fresh_ids fields events ->
    run fields events = Some fields' ->
    all_distinct (ids fields') = true /\
    forall path X, node_at fields' path = Some X ->
                   addressable fields' path (id X) = true.
Proof.
  induction events as [|e es IH]; intros fields fields' Hd Hfresh Hrun;
    cbn [run fresh_ids] in *.
  - inversion Hrun; subst fields'. split; auto.
    intros path X. now apply addressable_of_distinct.
  - destruct Hfresh as [Hnew Hrest].
    destruct (dispatch fields e) as [fields1|] eqn:Hstep; [|discriminate].
    apply (IH fields1 fields'); auto.
    apply (dispatch_keeps_ids_distinct fields fields1 e); auto.
Qed.

Lemma fresh_id_check (fields : list Field) (x : number) :
  (x === x) && forallb (fun y => (x !== y) && (y !== x)) (ids fields) = true ->
  fresh_id fields x.
Proof.
  intros H. apply andb_true_iff in H as [Hx Hall]. split; auto.
  intros y Hy. rewrite forallb_forall in Hall. specialize (Hall y Hy).
  apply andb_true_iff in Hall as [E1 E2]. apply negb_true_iff in E1, E2. auto.
Qed.

Lemma run_keeps_ids_distinct_witness :
  exists fields',
    run initialFields
      [ ClickAddField 1700000000000%float 0.5%float;
        ChangeRow [2] (ChangeKeyName "price");
        ClickRemove [0; 1];
        ClickAddNestedField [0] 1700000000001%float 0.25%float ] = Some fields' /\
    all_distinct (ids fields') = true.
Proof.
  eexists. split; [reflexivity|].
  refine (proj1 (run_keeps_ids_distinct
            [ ClickAddField 1700000000000%float 0.5%float;
              ChangeRow [2] (ChangeKeyName "price");
              ClickRemove [0; 1];
              ClickAddNestedField [0] 1700000000001%float 0.25%float ]
            initialFields _ eq_refl _ eq_refl)).
  cbn [fresh_ids]. split; [now apply fresh_id_check|].
  change (dispatch initialFields (ClickAddField 1700000000000%float 0.5%float))
    with (Some (addField initialFields 1700000000000%float 0.5%float)).
  cbn [fresh_ids]. split; [exact I|].
  repeat (match goal with
          | |- match ?d with _ => _ end =>
              let r := eval vm_compute in d in change d with r; cbn iota
          end;
          cbn [fresh_ids];
          first [exact I | split; [first [exact I | now apply fresh_id_check]|]]).
Defined.

(** ** Adding a field and naming it *)

Lemma replace_nth_app_length {A} (l : list A) (x y : A) :
  replace_nth (List.length l) y (l ++ [x]) = l ++ [y].
Proof. induction l as [|a l IH]; cbn; auto. now rewrite IH. Qed.

(** X12: adding a root field and then typing a name into its row, in a
    tree whose ids are pairwise different and with a fresh id for the new
    field, yields the old fields followed by one field of type ["string"]
    with that name.  When the name is neither empty nor [__proto__], the
    projection then binds it, once, to the placeholder string. *)
Theorem add_field_then_name_it
  (fields : list Field) (now random : number) (k : string) :
  all_distinct (ids fields) = true ->
  fresh_id fields (now + random)%float ->
  run fields [ ClickAddField now random;
               ChangeRow [List.length fields] (ChangeKeyName k) ] =
    Some (fields ++ [mkField (now + random)%float k "string" []]) /\
  (k <> "" -> k <> "__proto__" ->
   get (generateSchema (fields ++ [mkField (now + random)%float k "string" []])) k =
     Some (JString "String (default)") /\
   count_occ string_dec
     (own_keys (generateSchema (fields ++ [mkField (now + random)%float k "string" []])))
     k = 1).
Proof.
  intros Hd Hfresh. split.
  - cbn [run dispatch].
    assert (Hd' : all_distinct (ids (addField fields now random)) = true)
      by (apply (dispatch_keeps_ids_distinct fields _ (ClickAddField now random));
          auto).
    assert (Hrow : exists q,
              SchemaBuilder (addField fields now random) [List.length fields] = Some q /\
              field q = createDefaultField now random).
    { cbn [SchemaBuilder]. unfold addField at 1 3.
      rewrite nth_error_app2, Nat.sub_diag by lia. cbn. eauto. }
    destruct Hrow as (q & Hrow & Hq). rewrite Hrow.
    destruct (handleUpdate_step _ _ q (ChangeKeyName k) Hrow Hd') as [E _].
    rewrite E, Hq. cbn [replace_at with_change createDefaultField id type children].
    unfold addField. now rewrite replace_nth_app_length.
  - intros Hk Hp.
    assert (He : emits (mkField (now + random)%float k "string" []) = true).
    { unfold emits. cbn [keyName type]. apply String.eqb_neq in Hk, Hp.
      now rewrite Hk, Hp. }
    apply (emitting_field_binds_its_name fields [] _ He). intros g [].
Qed.

Lemma add_field_then_name_it_witness :
  run initialFields
    [ ClickAddField 1700000000000%float 0.5%float;
      ChangeRow [2] (ChangeKeyName "price") ] =
  Some (initialFields ++ [mkField 1700000000000.5%float "price" "string" []]).
Proof.
  refine (proj1 (add_field_then_name_it initialFields 1700000000000%float 0.5%float
                   "price" eq_refl _)).
  now apply fresh_id_check.
Defined.

(** * More facts about the store model *)

(** ** No update writes to an existing cell *)



Lemma addField_extends (fields : Store.loc) (now random : number)
  (h h' : Store.heap) (r : Store.loc) :
  Store.addField fields now random h = Some (h', r) -> Store.extends h h'.
Proof.
  unfold Store.addField, Store.createDefaultField, Store.alloc.
  destruct (Store.read h fields) as [[| elems |]|]; try discriminate.
  intros H. inversion H. eexists. now rewrite <- !app_assoc.
Qed.

Section Persistent.

Variable field : Store.loc.
Variable onUpdate : Store.callback.
Hypothesis onUpdate_extends :
  forall u h h' r, onUpdate u h = Some (h', r) -> Store.extends h h'.





End Persistent.



(** ** Every edit of a tree returns *)






Section Returning.

Variable h0 : Store.heap.
Variable field : Store.loc.
Variable onUpdate : Store.callback.
Variable F : Field.
Hypothesis field_holds : Store.repr_field h0 F field.
Hypothesis onUpdate_returns :
  forall u h, Store.extends h0 h -> (exists x, Store.id_of h u = Some x) ->
              exists h' r, onUpdate u h = Some (h', r).





End Returning.




(** ** Adding over the heap *)

Lemma createDefaultField_repr (now random : number) (h : Store.heap) :
  Store.extends h (fst (Store.createDefaultField now random h)) /\
  List.length (fst (Store.createDefaultField now random h)) = List.length h + 2 /\
  List.length h <= snd (Store.createDefaultField now random h) /\
  Store.repr_field (fst (Store.createDefaultField now random h))
    (createDefaultField now random)
    (snd (Store.createDefaultField now random h)).
Proof.
  unfold Store.createDefaultField, Store.alloc. cbn [fst snd].
  repeat split.
  - eexists. now rewrite <- app_assoc.
  - rewrite !length_app. cbn. lia.
  - rewrite length_app. cbn. lia.
  - apply repr_field_eq. exists (List.length h). split.
    + apply (read_alloc (h ++ [Store.CArray []])).
    + exists []. split; [|constructor].
      apply (read_extends (h ++ [Store.CArray []])); [now eexists|apply read_alloc].
Qed.

(** X15: on a heap that holds a tree, [addField] returns a new root array
    with the references of the old one followed by one new object, the
    default field; three cells are allocated (the child array and the object
    of the new field, and the root array), no existing cell is changed, and
    the new array holds the old tree followed by the default field. *)
Theorem addField_shares_the_old_fields
  (h : Store.heap) (arr : Store.loc) (fields : list Field) (now random : number) :
  Store.repr_fields h fields arr ->
  exists h' arr' elems f,
    Store.addField arr now random h = Some (h', arr') /\
    Store.extends h h' /\
    List.length h' = List.length h + 3 /\
    Store.read h arr = Some (Store.CArray elems) /\
    Store.read h' arr' = Some (Store.CArray (elems ++ [f])) /\
    List.length h <= f /\ List.length h <= arr' /\
    Store.repr_fields h' (addField fields now random) arr'.
Proof.
  intros (elems & Hread & Hall). unfold Store.addField. rewrite Hread.
  destruct (createDefaultField_repr now random h) as (Hext & Hl1 & Hlen & Hrepr).
  destruct (Store.createDefaultField now random h) as [h1 f].
  cbn [fst snd] in *. unfold Store.alloc.
  assert (Hext1 : Store.extends h1 (h1 ++ [Store.CArray (elems ++ [f])]))
    by now eexists.
  exists (h1 ++ [Store.CArray (elems ++ [f])]), (List.length h1), elems, f.
  repeat split; auto.
  - now apply (extends_trans h h1).
  - rewrite length_app. cbn. lia.
  - apply read_alloc.
  - lia.
  - exists (elems ++ [f]). split; [apply read_alloc|]. unfold addField.
    apply Forall2_app.
    + apply (Forall2_repr_field_extends h); auto. now apply (extends_trans h h1).
    + constructor; [|constructor]. now apply (repr_field_extends h1).
Qed.

Lemma addField_shares_the_old_fields_witness :
  exists h' arr' f,
    Store.addField (snd Store.initialFields) 1700000000000%float 0.5%float
      (fst Store.initialFields) = Some (h', arr') /\
    Store.read h' arr' = Some (Store.CArray ([11; 13] ++ [f])) /\
    Store.repr_fields h' (addField initialFields 1700000000000%float 0.5%float) arr'.
Proof.
  destruct (addField_shares_the_old_fields
              (fst Store.initialFields) (snd Store.initialFields) initialFields
              1700000000000%float 0.5%float)
    as (h' & arr' & elems & f & H1 & _ & _ & H4 & H5 & _ & _ & H8).
  - holds_literal.
  - vm_compute in H4. inversion H4; subst elems. exists h', arr', f. auto.
Defined.

(** X16: on a heap that holds a tree whose ids are pairwise different,
    adding a child through a rendered row returns a new root array that
    holds the tree with a default field appended to the children of the
    row's node.  No existing cell is changed; the arrays and objects off the
    path are shared with the old tree, and besides the two cells per level of
    the path only the new field (two cells) and the new array of children
    are allocated. *)
Theorem addChildField_rebuilds_only_the_path
  (h : Store.heap) (arr : Store.loc) (fields : list Field) (path : list nat)
  (q : Store.Props) (now random : number) :
  Store.repr_fields h fields arr ->
  all_distinct (ids fields) = true ->
  Store.SchemaBuilder h arr path = Some q ->
  exists h' arr' u X,
    Store.addChildField (Store.field q) (Store.onUpdate q) now random h
      = Some (h', arr') /\
    Store.extends h h' /\
    List.length h' = List.length h + 2 * List.length path + 3 /\
    node_at fields path = Some X /\
    List.length h <= u /\
    Store.rebuilt h h' arr arr' path u /\
    Store.repr_fields h'
      (replace_at path
         (with_children X (children X ++ [createDefaultField now random])) fields)
      arr'.
Proof.
  intros Hrepr Hd Hrow.
  destruct (SchemaBuilder_field_repr h fields arr path q Hrepr Hrow) as (X & HX & HXq).
  destruct (repr_field_cell h X _ HXq) as (c & Hcell & celems & Hc & Hall).
  pose proof (addressable_repr h (id X) path fields arr Hrepr
                (addressable_of_distinct path fields X Hd HX)) as Hadr.
  unfold Store.addChildField. rewrite Hcell, Hc.
  destruct (createDefaultField_repr now random h) as (Hext1 & Hl1 & Hnew & Hchild).
  destruct (Store.createDefaultField now random h) as [h1 child].
  cbn [fst snd] in *. unfold Store.alloc.
  set (h2 := h1 ++ [Store.CArray (celems ++ [child])]).
  set (h3 := h2 ++ [Store.CField (id X) (keyName X) (type X) (List.length h1)]).
  assert (Hext12 : Store.extends h1 h2) by now eexists.
  assert (Hext23 : Store.extends h2 h3) by now eexists.
  assert (Hext3 : Store.extends h h3)
    by (apply (extends_trans h h1); auto; now apply (extends_trans h1 h2)).
  destruct (SchemaBuilder_rebuilds h arr path q (id X) Hrow Hadr h3 (List.length h2))
    as (h' & r & Hcall & Hext' & Hlen & HR); auto.
  - unfold Store.id_of, h3. now rewrite read_alloc.
  - assert (Hext : Store.extends h h') by now apply (extends_trans h h3).
    exists h', r, (List.length h2), X. repeat split; auto.
    + unfold h3, h2 in Hlen. rewrite !length_app in Hlen. cbn in Hlen. lia.
    + unfold h2. rewrite length_app. lia.
    + apply (rebuilt_repr path h h' arr r (List.length h2)); auto.
      unfold with_children. apply repr_field_eq. exists (List.length h1). split.
      * apply (read_extends h3); auto. unfold h3. apply read_alloc.
      * exists (celems ++ [child]). split.
        -- apply (read_extends h2); [now apply (extends_trans h2 h3)|].
           unfold h2. apply read_alloc.
        -- apply Forall2_app.
           ++ now apply (Forall2_repr_field_extends h).
           ++ constructor; [|constructor]. apply (repr_field_extends h1); auto.
              apply (extends_trans h1 h2); auto. now apply (extends_trans h2 h3).
Qed.

Lemma addChildField_rebuilds_only_the_path_witness :
  exists q h' arr',
    Store.SchemaBuilder (fst Store.initialFields) (snd Store.initialFields) [0; 2]
      = Some q /\
    Store.addChildField (Store.field q) (Store.onUpdate q)
      1700000000000%float 0.5%float (fst Store.initialFields) = Some (h', arr') /\
    Store.extends (fst Store.initialFields) h' /\
    List.length h' = 22.
Proof.
  destruct (Store.SchemaBuilder (fst Store.initialFields) (snd Store.initialFields)
              [0; 2]) as [q|] eqn:Hq; [|vm_compute in Hq; discriminate Hq].
  destruct (addChildField_rebuilds_only_the_path
              (fst Store.initialFields) (snd Store.initialFields) initialFields
              [0; 2] q 1700000000000%float 0.5%float)
    as (h' & arr' & u & X & H1 & H2 & H3 & _).
  - holds_literal.
  - reflexivity.
  - exact Hq.
  - exists q, h', arr'. repeat split; auto.
Defined.

(** ** Removing over the heap *)

Lemma Store_FieldRow_app (h : Store.heap) (a b : list nat) :
  forall p : Store.Props,
    Store.FieldRow h p (a ++ b) =
    match Store.FieldRow h p a with
    | Some p' => Store.FieldRow h p' b
    | None => None
    end.
Proof.
  induction a as [|i a IH]; intros p; cbn [app Store.FieldRow]; auto.
  destruct (Store.read h (Store.field p)) as [[fi fk t c| |]|]; auto.
  destruct (t =? "nested"); auto.
  destruct (Store.read h c) as [[| elems |]|]; auto.
  destruct (nth_error elems i) as [child|]; auto.
  destruct (Store.id_of h child); auto.
Qed.

(** The row at [P ++ [i]] is the row that the row at [P] renders for its
    child [i]. *)
Lemma Store_SchemaBuilder_snoc (h : Store.heap) (arr : Store.loc)
  (P : list nat) (i : nat) (q : Store.Props) :
  P <> [] ->
  Store.SchemaBuilder h arr (P ++ [i]) = Some q ->
  exists p, Store.SchemaBuilder h arr P = Some p /\ Store.FieldRow h p [i] = Some q.
Proof.
  destruct P as [|i0 P]; [congruence|]. intros _.
  cbn [app Store.SchemaBuilder].
  destruct (Store.read h arr) as [[| elems |]|]; try discriminate.
  destruct (nth_error elems i0) as [f|]; [|discriminate].
  destruct (Store.id_of h f); [|discriminate].
  rewrite Store_FieldRow_app.
  destruct (Store.FieldRow h _ P) as [p|]; [|discriminate].
  intros H. now exists p.
Qed.

Lemma array_filter_no_match (h0 h : Store.heap) (x : number)
  (elems : list Store.loc) (i : nat) :
  Store.extends h0 h ->
  forall k, Store.only_from h0 k elems i x = true -> i < k ->
  Store.array_filter (Store.has_other_id h x) elems = Some elems.
Proof.
  intros Hext. induction elems as [|e es IH]; intros k H Hk;
    cbn [Store.only_from Store.array_filter] in *; auto.
  destruct (Store.id_of h0 e) as [ei|] eqn:Ee; [|discriminate].
  apply andb_true_iff in H as [H0 H]. apply eqb_prop in H0.
  unfold Store.has_other_id at 1.
  rewrite (id_of_extends h0 h e ei Hext Ee), H0.
  replace (k =? i)%nat with false by (symmetry; apply Nat.eqb_neq; lia).
  cbn [negb]. now rewrite (IH (S k)) by (auto; lia).
Qed.

Lemma array_filter_only_from (h0 h : Store.heap) (x : number)
  (elems : list Store.loc) (i : nat) :
  Store.extends h0 h ->
  forall k d, Store.only_from h0 k elems i x = true -> i = k + d ->
  d < List.length elems ->
  Store.array_filter (Store.has_other_id h x) elems = Some (remove_nth d elems).
Proof.
  intros Hext. induction elems as [|e es IH]; intros k d H Hi Hd;
    cbn [Store.only_from Store.array_filter List.length] in *; [lia|].
  destruct (Store.id_of h0 e) as [ei|] eqn:Ee; [|discriminate].
  apply andb_true_iff in H as [H0 H]. apply eqb_prop in H0.
  unfold Store.has_other_id at 1.
  rewrite (id_of_extends h0 h e ei Hext Ee), H0.
  destruct d as [|d].
  - replace (k =? i)%nat with true by (symmetry; apply Nat.eqb_eq; lia).
    cbn [negb remove_nth].
    now rewrite (array_filter_no_match h0 h x es i Hext (S k)) by (auto; lia).
  - replace (k =? i)%nat with false by (symmetry; apply Nat.eqb_neq; lia).
    cbn [negb remove_nth]. now rewrite (IH (S k) d) by (auto; lia).
Qed.

Lemma Forall2_remove_nth {A B} (R : A -> B -> Prop) (l1 : list A) (l2 : list B)
  (i : nat) :
  Forall2 R l1 l2 -> Forall2 R (remove_nth i l1) (remove_nth i l2).
Proof.
  intros H. revert i. induction H as [|a b l1 l2 Hab H IH]; intros [|i]; cbn;
    try constructor; auto.
Qed.

Lemma remove_at_snoc (P : list nat) (i : nat) :
  forall fields a,
    node_at fields P = Some a ->
    remove_at (P ++ [i]) fields =
    replace_at P (with_children a (remove_nth i (children a))) fields.
Proof.
  induction P as [|i0 P IH]; intros fields a Ha; [discriminate|].
  cbn [app node_at remove_at replace_at] in *.
  destruct (nth_error fields i0) as [f|] eqn:Hf; [|discriminate].
  destruct P as [|i1 P].
  - inversion Ha; subst f. reflexivity.
  - cbn [app]. cbn [app] in IH. now rewrite (IH (children f) a Ha).
Qed.

Lemma all_distinct_children_at (P : list nat) :
  forall fields a,
    all_distinct (ids fields) = true ->
    node_at fields P = Some a ->
    all_distinct (ids (children a)) = true.
Proof.
  induction P as [|i P IH]; intros fields a Hd Ha; [discriminate|].
  cbn [node_at] in Ha.
  destruct (nth_error fields i) as [f|] eqn:Hf; [|discriminate].
  destruct (only_match_of_distinct fields i f Hd Hf) as [_ Hc].
  destruct P as [|i1 P].
  - now inversion Ha; subst.
  - now apply (IH (children f)).
Qed.

(** X17: on a heap that holds a tree whose ids are pairwise different,
    the [onRemove] of a rendered row returns a new root array that holds the
    tree without the row's node and its subtree.  No existing cell is
    changed, and one cell less than two per level of the path is allocated:
    the filtered array, and a new object and array for each ancestor. *)
Theorem onRemove_rebuilds_only_the_path
  (h : Store.heap) (arr : Store.loc) (fields : list Field) (path : list nat)
  (q : Store.Props) :
  Store.repr_fields h fields arr ->
  all_distinct (ids fields) = true ->
  Store.SchemaBuilder h arr path = Some q ->
  exists h' arr',
    Store.onRemove q h = Some (h', arr') /\
    Store.extends h h' /\
    List.length h' + 1 = List.length h + 2 * List.length path /\
    List.length h <= arr' /\
    Store.repr_fields h' (remove_at path fields) arr'.
Proof.
  intros Hrepr Hd Hrow.
  assert (Hne : path <> []) by (destruct path; [discriminate|congruence]).
  destruct (exists_last Hne) as (P & i & ->).
  destruct P as [|i0 P0].
  - (* a root row *)
    destruct Hrepr as (elems & Hread & Hall).
    cbn [app Store.SchemaBuilder] in Hrow. rewrite Hread in Hrow.
    destruct (nth_error elems i) as [f|] eqn:Hf; [|discriminate].
    destruct (Forall2_nth_error_r _ _ _ Hall i f Hf) as (X & HX & HXf).
    rewrite (repr_field_id h X f HXf) in Hrow.
    cbn in Hrow. inversion Hrow; subst q. cbn [Store.onRemove].
    unfold Store.removeField. rewrite Hread.
    destruct (only_match_of_distinct fields i X Hd HX) as [Honly _].
    unfold only_match in Honly. rewrite <- (only_from_repr h fields elems i _ Hall) in Honly.
    rewrite (array_filter_only_from h h (id X) elems i (extends_refl h) 0 i Honly eq_refl
               (nth_error_in_range _ _ _ Hf)).
    unfold Store.alloc. do 2 eexists. split; [reflexivity|].
    repeat split.
    + now eexists.
    + rewrite length_app. cbn. lia.
    + lia.
    + exists (remove_nth i elems). split; [apply read_alloc|].
      cbn [app remove_at]. apply Forall2_remove_nth.
      apply (Forall2_repr_field_extends h); auto. now eexists.
  - (* a nested row: the parent's handleChildRemove *)
    destruct (Store_SchemaBuilder_snoc h arr (i0 :: P0) i q ltac:(discriminate) Hrow)
      as (p & Hp & Hq).
    destruct (SchemaBuilder_field_repr h fields arr _ p Hrepr Hp) as (Pt & HPt & HPp).
    destruct (repr_field_cell h Pt _ HPp) as (c & Hcell & celems & Hc & Hall).
    cbn [Store.FieldRow] in Hq. rewrite Hcell in Hq.
    destruct (type Pt =? "nested"); [|discriminate].
    rewrite Hc in Hq.
    destruct (nth_error celems i) as [child|] eqn:Hchild; [|discriminate].
    destruct (Forall2_nth_error_r _ _ _ Hall i child Hchild) as (X & HX & HXc).
    rewrite (repr_field_id h X child HXc) in Hq.
    inversion Hq; subst q. cbn [Store.onRemove].
    unfold Store.handleChildRemove. rewrite Hcell, Hc.
    pose proof (all_distinct_children_at _ fields Pt Hd HPt) as Hdc.
    destruct (only_match_of_distinct (children Pt) i X Hdc HX) as [Honly _].
    unfold only_match in Honly.
    rewrite <- (only_from_repr h (children Pt) celems i _ Hall) in Honly.
    rewrite (array_filter_only_from h h (id X) celems i (extends_refl h) 0 i Honly
               eq_refl (nth_error_in_range _ _ _ Hchild)).
    unfold Store.alloc.
    set (h1 := h ++ [Store.CArray (remove_nth i celems)]).
    set (h2 := h1 ++ [Store.CField (id Pt) (keyName Pt) (type Pt) (List.length h)]).
    assert (Hext1 : Store.extends h h1) by now eexists.
    assert (Hext12 : Store.extends h1 h2) by now eexists.
    assert (Hext2 : Store.extends h h2) by now apply (extends_trans h h1).
    pose proof (addressable_repr h (id Pt) _ fields arr Hrepr
                  (addressable_of_distinct _ fields Pt Hd HPt)) as Hadr.
    destruct (SchemaBuilder_rebuilds h arr _ p (id Pt) Hp Hadr h2 (List.length h1))
      as (h' & r & Hcall & Hext' & Hlen & HR); auto.
    + unfold Store.id_of, h2. now rewrite read_alloc.
    + assert (Hext : Store.extends h h') by now apply (extends_trans h h2).
      exists h', r. repeat split; auto.
      * rewrite length_app. unfold h2, h1 in Hlen. rewrite !length_app in Hlen.
        cbn in *. lia.
      * cbn [Store.rebuilt] in HR. destruct HR as (? & ? & _ & _ & HR & _). exact HR.
      * rewrite (remove_at_snoc (i0 :: P0) i fields Pt HPt).
        apply (rebuilt_repr _ h h' arr r (List.length h1)); auto.
        unfold with_children. apply repr_field_eq. exists (List.length h). split.
        -- apply (read_extends h2); auto. unfold h2. apply read_alloc.
        -- exists (remove_nth i celems). split.
           ++ apply (read_extends h1); [now apply (extends_trans h1 h2)|].
              unfold h1. apply read_alloc.
           ++ apply Forall2_remove_nth. now apply (Forall2_repr_field_extends h).
Qed.

Lemma onRemove_rebuilds_only_the_path_witness :
  exists q h' arr',
    Store.SchemaBuilder (fst Store.initialFields) (snd Store.initialFields) [0; 2]
      = Some q /\
    Store.onRemove q (fst Store.initialFields) = Some (h', arr') /\
    Store.repr_fields h'
      [ mkField 1%float "user" "nested"
          [ mkField 2%float "name" "string" [];
            mkField 3%float "age" "number" [] ];
        mkField 7%float "productId" "string" [] ] arr'.
Proof.
  destruct (Store.SchemaBuilder (fst Store.initialFields) (snd Store.initialFields)
              [0; 2]) as [q|] eqn:Hq; [|vm_compute in Hq; discriminate Hq].
  destruct (onRemove_rebuilds_only_the_path
              (fst Store.initialFields) (snd Store.initialFields) initialFields
              [0; 2] q)
    as (h' & arr' & H1 & _ & _ & _ & H5).
  - holds_literal.
  - reflexivity.
  - exact Hq.
  - exists q, h', arr'. repeat split; auto.
Defined.
